(** * bpmn-visualization: kind classification and icon painting

    A shallow embedding of [src/model/bpmn/shape/ShapeUtil.ts] (the suffix
    filters over [ShapeBpmnElementKind]) and of the icon painting canvas
    ([computeScaledIconSize] and the [BpmnCanvas] wrapper of
    [mxAbstractCanvas2D]).

    Conventions of the embedding.
    - A JavaScript [number] is an exact rational ([Qc], the canonical
      rationals, so that equal numbers are equal terms).  Rounding to
      binary64, infinities and NaN are outside the model: a division by
      zero, which JavaScript answers with Infinity or NaN, is [0] here, and
      no statement below relies on it.  What is proved of computed numbers
      is proved of exact arithmetic; where the rounding of binary64 decides
      a statement, the functions concerned are given again on binary64
      numbers (module [Binary64]) and evaluated there.
    - A JavaScript string is a [string] of 8-bit characters; the kinds and
      the suffixes of the program are ASCII identifiers.  Where a statement
      is about every string, strings are sequences of UTF-16 code units
      and lower-casing follows the letters around a capital sigma (module
      [JsUnicode]).
    - The wrapped [mxAbstractCanvas2D] is the list of the calls it has
      received, oldest first. *)

From Stdlib Require Import ZArith NArith QArith Qcanon List String Ascii Bool.
From Stdlib Require Import Floats Lia.
Import ListNotations.

Set Implicit Arguments.

(* ================================================================== *)
(** * JavaScript values *)
(* ================================================================== *)

Module Js.

(** ** Strings *)

Local Open Scope string_scope.

(** [String.prototype.endsWith]: some tail of [s] is [suffix]. *)
Fixpoint endsWith (s suffix : string) : bool :=
  if String.eqb s suffix then true
  else match s with
       | EmptyString => false
       | String _ s' => endsWith s' suffix
       end.

Definition lowerChar (c : ascii) : ascii :=
  let n := nat_of_ascii c in
  if (65 <=? n)%nat && (n <=? 90)%nat then ascii_of_nat (n + 32) else c.

(** [String.prototype.toLowerCase] on ASCII text. *)
Fixpoint toLowerCase (s : string) : string :=
  match s with
  | EmptyString => EmptyString
  | String c s' => String (lowerChar c) (toLowerCase s')
  end.

(** [Array.prototype.includes] on an array of strings. *)
Definition includes (l : list string) (x : string) : bool :=
  existsb (String.eqb x) l.

(** ** Numbers *)

Abbreviation number := Qc (only parsing).

Definition ofZ (z : Z) : number := Q2Qc (inject_Z z).

(** [a < b], [a <= b] and [a == b] on numbers. *)
Definition ltb (a b : number) : bool :=
  match (a ?= b)%Qc with Lt => true | _ => false end.
Definition leb (a b : number) : bool :=
  match (a ?= b)%Qc with Gt => false | _ => true end.
Definition eqb (a b : number) : bool := Qeq_bool a b.

(** Truthiness of a number in a condition: every number but zero. *)
Definition truthy (a : number) : bool := negb (eqb a 0%Qc).

End Js.

(* ================================================================== *)
(** * ShapeUtil: the suffix filters over the kinds *)
(* ================================================================== *)

Module ShapeUtil.
Import Js.
Local Open Scope string_scope.

(** The arrow function handed to [filter] in [filterKind]. *)
Definition filterKindPredicate (suffix : string) (ignoreCase : bool)
           (kind : string) : bool :=
  if ignoreCase
  then endsWith kind suffix
       || endsWith (toLowerCase kind) (toLowerCase suffix)
  else endsWith kind suffix.

Section Kinds.

(** [Object.values(ShapeBpmnElementKind)]: the values of the enumeration
    in declaration order.  The enumeration is declared in
    [ShapeBpmnElementKind.ts]; the filters work for any such list. *)
Variable ShapeBpmnElementKind : list string.

Definition filterKind (suffix : string) (ignoreCase : bool) : list string :=
  filter (filterKindPredicate suffix ignoreCase) ShapeBpmnElementKind.

Definition EVENT_KINDS : list string := filterKind "Event" false.
Definition TASK_KINDS : list string := filterKind "Task" true.
Definition GATEWAY_KINDS : list string := filterKind "Gateway" false.

Definition isEvent (kind : string) : bool := includes EVENT_KINDS kind.

Definition topLevelBpmnEventKinds : list string := EVENT_KINDS.
Definition taskKinds : list string := TASK_KINDS.
Definition gatewayKinds : list string := GATEWAY_KINDS.

End Kinds.

(** The identifier set of the classification example. *)
Definition upperSnakeKinds : list string :=
  ["START_EVENT"; "END_EVENT"; "USER_TASK"; "EXCLUSIVE_GATEWAY"].

(** The same four kinds spelled as the values of the enumeration are. *)
Definition camelKinds : list string :=
  ["startEvent"; "endEvent"; "userTask"; "exclusiveGateway"].

End ShapeUtil.

(* ================================================================== *)
(** * render-types: the configuration records *)
(* ================================================================== *)

Module RenderTypes.
Import Js.

Record Size : Set := { width : number; height : number }.

Record ShapeConfiguration : Set :=
  { x : number; y : number; w : number; h : number }.

Record IconStyleConfiguration : Set :=
  { isFilled : bool;
    strokeColor : string;
    fillColor : string;
    strokeWidth : number }.

End RenderTypes.

(* ================================================================== *)
(** * computeScaledIconSize *)
(* ================================================================== *)

Module IconSize.
Import Js RenderTypes.
Local Open Scope Qc_scope.

(** The condition of the [if]: the icon is fitted to the width of the
    shape. *)
Definition fitsShapeWidth (initialIconSize : Size)
           (shapeConfiguration : ShapeConfiguration) : bool :=
  ltb (height initialIconSize) (width initialIconSize)
  || (eqb (height initialIconSize) (width initialIconSize)
      && leb (w shapeConfiguration) (h shapeConfiguration)).

(** [iconWidthProportionalToShape] and [iconHeightProportionalToShape],
    as the two branches assign them. *)
Definition iconSizeProportionalToShape (initialIconSize : Size)
           (shapeConfiguration : ShapeConfiguration) : Size :=
  if fitsShapeWidth initialIconSize shapeConfiguration
  then {| width := w shapeConfiguration;
          height := (w shapeConfiguration * height initialIconSize)
                    / width initialIconSize |}
  else {| width := (h shapeConfiguration * width initialIconSize)
                   / height initialIconSize;
          height := h shapeConfiguration |}.

(** The constant [inset]. *)
Definition inset (iconStyleConfiguration : IconStyleConfiguration) : number :=
  if truthy (strokeWidth iconStyleConfiguration)
  then (strokeWidth iconStyleConfiguration - 1) * ofZ 2
  else 0.

Definition computeScaledIconSize (initialIconSize : Size)
           (iconStyleConfiguration : IconStyleConfiguration)
           (shapeConfiguration : ShapeConfiguration)
           (ratioFromShape : number) : Size :=
  let proportional :=
    iconSizeProportionalToShape initialIconSize shapeConfiguration in
  let inset := inset iconStyleConfiguration in
  let paintIconWidth := width proportional * ratioFromShape - inset in
  let paintIconHeight := height proportional * ratioFromShape - inset in
  {| width := paintIconWidth; height := paintIconHeight |}.

End IconSize.

(* ================================================================== *)
(** * BpmnCanvas *)
(* ================================================================== *)

Module Canvas.
Import Js RenderTypes IconSize.
Local Open Scope Qc_scope.

(** A call received by the wrapped [mxAbstractCanvas2D]. *)
Inductive mxCall : Set :=
| MxArcTo (rx ry angle largeArcFlag sweepFlag x y : number)
| MxBegin
| MxClose
| MxCurveTo (x1 y1 x2 y2 x3 y3 : number)
| MxFill
| MxFillAndStroke
| MxStroke
| MxSetFillColor (color : string)
| MxSetStrokeColor (color : string)
| MxSetStrokeWidth (width : number)
| MxSetLineJoin (value : string)
| MxLineTo (x y : number)
| MxMoveTo (x y : number)
| MxRect (x y w h : number)
| MxRoundrect (x y w h dx dy : number)
| MxEllipse (x y w h : number)
| MxRotate (theta : number) (flipH flipV : bool) (cx cy : number).

(** The fields of the class; [c] holds the calls forwarded so far. *)
Record BpmnCanvas : Set :=
  { c : list mxCall;
    iconOriginalSize : Size;
    scaleX : number;
    scaleY : number;
    iconPaintingOriginX : number;
    iconPaintingOriginY : number;
    shapeConfiguration : ShapeConfiguration }.

(** [this.c.<call>(...)] *)
Definition forward (this : BpmnCanvas) (call : mxCall) : BpmnCanvas :=
  {| c := c this ++ [call];
     iconOriginalSize := iconOriginalSize this;
     scaleX := scaleX this;
     scaleY := scaleY this;
     iconPaintingOriginX := iconPaintingOriginX this;
     iconPaintingOriginY := iconPaintingOriginY this;
     shapeConfiguration := shapeConfiguration this |}.

(** The two assignments to [iconPaintingOriginX] and
    [iconPaintingOriginY]. *)
Definition setOrigin (this : BpmnCanvas) (originX originY : number)
  : BpmnCanvas :=
  {| c := c this;
     iconOriginalSize := iconOriginalSize this;
     scaleX := scaleX this;
     scaleY := scaleY this;
     iconPaintingOriginX := originX;
     iconPaintingOriginY := originY;
     shapeConfiguration := shapeConfiguration this |}.

(** A parameter with a default value: [undefined] takes the default. *)
Definition orDefault (argument : option number) (default : number) : number :=
  match argument with
  | Some v => v
  | None => default
  end.

Definition setIconOriginToShapeTopLeftProportionally (this : BpmnCanvas)
           (shapeDimensionProportion : number) : BpmnCanvas :=
  let shape := shapeConfiguration this in
  setOrigin this
    (x shape + w shape / shapeDimensionProportion)
    (y shape + h shape / shapeDimensionProportion).

Definition setIconOriginForIconCentered (this : BpmnCanvas) : BpmnCanvas :=
  let shape := shapeConfiguration this in
  setOrigin this
    (x shape + (w shape - width (iconOriginalSize this) * scaleX this) / ofZ 2)
    (y shape + (h shape - height (iconOriginalSize this) * scaleY this) / ofZ 2).

Definition translateIconOrigin (this : BpmnCanvas) (dx dy : number)
  : BpmnCanvas :=
  setOrigin this
    (iconPaintingOriginX this + scaleX this * dx)
    (iconPaintingOriginY this + scaleY this * dy).

Definition computeScaleFromOriginX (this : BpmnCanvas) (x : number) : number :=
  iconPaintingOriginX this + x * scaleX this.

Definition computeScaleFromOriginY (this : BpmnCanvas) (y : number) : number :=
  iconPaintingOriginY this + y * scaleY this.

Definition updateCanvasStyle (this : BpmnCanvas)
           (style : IconStyleConfiguration) : BpmnCanvas :=
  let this :=
    if isFilled style
    then forward this (MxSetFillColor (strokeColor style))
    else forward this (MxSetFillColor (fillColor style)) in
  forward this (MxSetStrokeWidth (strokeWidth style)).

Definition arcTo (this : BpmnCanvas)
           (rx ry angle largeArcFlag sweepFlag x y : number) : BpmnCanvas :=
  forward this
    (MxArcTo (rx * scaleX this) (ry * scaleY this) angle largeArcFlag sweepFlag
             (computeScaleFromOriginX this x) (computeScaleFromOriginY this y)).

Definition begin (this : BpmnCanvas) : BpmnCanvas := forward this MxBegin.

Definition close (this : BpmnCanvas) : BpmnCanvas := forward this MxClose.

Definition curveTo (this : BpmnCanvas) (x1 y1 x2 y2 x3 y3 : number)
  : BpmnCanvas :=
  forward this
    (MxCurveTo (computeScaleFromOriginX this x1) (computeScaleFromOriginY this y1)
               (computeScaleFromOriginX this x2) (computeScaleFromOriginY this y2)
               (computeScaleFromOriginX this x3) (computeScaleFromOriginY this y3)).

Definition fill (this : BpmnCanvas) : BpmnCanvas := forward this MxFill.

Definition fillAndStroke (this : BpmnCanvas) : BpmnCanvas :=
  forward this MxFillAndStroke.

Definition stroke (this : BpmnCanvas) : BpmnCanvas := forward this MxStroke.

Definition setStrokeColor (this : BpmnCanvas) (color : string) : BpmnCanvas :=
  forward this (MxSetStrokeColor color).

Definition setRoundLineJoin (this : BpmnCanvas) : BpmnCanvas :=
  forward this (MxSetLineJoin "round").

Definition lineTo (this : BpmnCanvas) (x y : number) : BpmnCanvas :=
  forward this
    (MxLineTo (computeScaleFromOriginX this x) (computeScaleFromOriginY this y)).

Definition moveTo (this : BpmnCanvas) (x y : number) : BpmnCanvas :=
  forward this
    (MxMoveTo (computeScaleFromOriginX this x) (computeScaleFromOriginY this y)).

Definition rect (this : BpmnCanvas) (x y w h : number) : BpmnCanvas :=
  forward this
    (MxRect (computeScaleFromOriginX this x) (computeScaleFromOriginY this y)
            (w * scaleX this) (h * scaleY this)).

Definition roundrect (this : BpmnCanvas) (x y w h dx dy : number) : BpmnCanvas :=
  forward this
    (MxRoundrect (computeScaleFromOriginX this x) (computeScaleFromOriginY this y)
                 (w * scaleX this) (h * scaleY this) dx dy).

Definition ellipse (this : BpmnCanvas) (x y w h : number) : BpmnCanvas :=
  forward this
    (MxEllipse (computeScaleFromOriginX this x) (computeScaleFromOriginY this y)
               (w * scaleX this) (h * scaleY this)).

Definition rotate (this : BpmnCanvas) (theta : number) (flipH flipV : bool)
           (cx cy : number) : BpmnCanvas :=
  forward this
    (MxRotate theta flipH flipV
              (iconPaintingOriginX this + cx) (iconPaintingOriginY this + cy)).

(** A call of one of the methods a client of the class can call. *)
Inductive method : Set :=
| SetIconOriginToShapeTopLeftProportionally (shapeDimensionProportion : number)
| SetIconOriginToShapeTopLeft (topMargin leftMargin : option number)
| SetIconOriginForIconCentered
| SetIconOriginForIconBottomCentered (bottomMargin : option number)
| SetIconOriginForIconOnBottomLeft (bottomMargin fromCenterMargin : option number)
| TranslateIconOrigin (dx dy : number)
| ArcTo (rx ry angle largeArcFlag sweepFlag x y : number)
| Begin
| Close
| CurveTo (x1 y1 x2 y2 x3 y3 : number)
| Fill
| FillAndStroke
| Stroke
| SetStrokeColor (color : string)
| SetRoundLineJoin
| LineTo (x y : number)
| MoveTo (x y : number)
| Rect (x y w h : number)
| Roundrect (x y w h dx dy : number)
| Ellipse (x y w h : number)
| Rotate (theta : number) (flipH flipV : bool) (cx cy : number).

(** [IconConfiguration]; the callback [setIconOrigin] receives the canvas
    and can only call its methods. *)
Record IconConfiguration : Set :=
  { originalSize : Size;
    style : IconStyleConfiguration;
    ratioFromShape : option number;
    setIconOrigin : list method }.

(** The methods that forward coordinates mapped by
    [computeScaleFromOriginX] and [computeScaleFromOriginY]. *)
Definition usesScaledCoordinates (m : method) : bool :=
  match m with
  | ArcTo _ _ _ _ _ _ _ | CurveTo _ _ _ _ _ _ | LineTo _ _ | MoveTo _ _
  | Rect _ _ _ _ | Roundrect _ _ _ _ _ _ | Ellipse _ _ _ _ => true
  | _ => false
  end.

(** The same call with every coordinate moved by [(dx, dy)]; sizes, radii,
    angles and flags are left as they are. *)
Definition shifted (dx dy : number) (m : method) : method :=
  match m with
  | ArcTo rx ry angle largeArcFlag sweepFlag x y =>
      ArcTo rx ry angle largeArcFlag sweepFlag (x + dx) (y + dy)
  | CurveTo x1 y1 x2 y2 x3 y3 =>
      CurveTo (x1 + dx) (y1 + dy) (x2 + dx) (y2 + dy) (x3 + dx) (y3 + dy)
  | LineTo x y => LineTo (x + dx) (y + dy)
  | MoveTo x y => MoveTo (x + dx) (y + dy)
  | Rect x y w h => Rect (x + dx) (y + dy) w h
  | Roundrect x y w h rdx rdy => Roundrect (x + dx) (y + dy) w h rdx rdy
  | Ellipse x y w h => Ellipse (x + dx) (y + dy) w h
  | other => other
  end.

Section StyleDefault.

(** The margins of [StyleDefault] ([StyleUtils.ts]), the default values
    of the margin parameters. *)
Variables SHAPE_ACTIVITY_TOP_MARGIN SHAPE_ACTIVITY_LEFT_MARGIN
          SHAPE_ACTIVITY_BOTTOM_MARGIN SHAPE_ACTIVITY_FROM_CENTER_MARGIN
  : number.

Definition setIconOriginToShapeTopLeft (this : BpmnCanvas)
           (topMargin leftMargin : option number) : BpmnCanvas :=
  let topMargin := orDefault topMargin SHAPE_ACTIVITY_TOP_MARGIN in
  let leftMargin := orDefault leftMargin SHAPE_ACTIVITY_LEFT_MARGIN in
  let shape := shapeConfiguration this in
  setOrigin this (x shape + leftMargin) (y shape + topMargin).

Definition setIconOriginForIconBottomCentered (this : BpmnCanvas)
           (bottomMargin : option number) : BpmnCanvas :=
  let bottomMargin := orDefault bottomMargin SHAPE_ACTIVITY_BOTTOM_MARGIN in
  let shape := shapeConfiguration this in
  setOrigin this
    (x shape + (w shape - width (iconOriginalSize this) * scaleX this) / ofZ 2)
    (y shape + (h shape - height (iconOriginalSize this) * scaleY this
                - bottomMargin)).

Definition setIconOriginForIconOnBottomLeft (this : BpmnCanvas)
           (bottomMargin fromCenterMargin : option number) : BpmnCanvas :=
  let bottomMargin := orDefault bottomMargin SHAPE_ACTIVITY_BOTTOM_MARGIN in
  let fromCenterMargin :=
    orDefault fromCenterMargin SHAPE_ACTIVITY_FROM_CENTER_MARGIN in
  let shape := shapeConfiguration this in
  setOrigin this
    (x shape + (w shape - width (iconOriginalSize this) * scaleX this) / ofZ 3
     - fromCenterMargin)
    (y shape + (h shape - height (iconOriginalSize this) * scaleY this
                - bottomMargin)).

(** One method call on the canvas. *)
Definition invoke (this : BpmnCanvas) (m : method) : BpmnCanvas :=
  match m with
  | SetIconOriginToShapeTopLeftProportionally p =>
      setIconOriginToShapeTopLeftProportionally this p
  | SetIconOriginToShapeTopLeft topMargin leftMargin =>
      setIconOriginToShapeTopLeft this topMargin leftMargin
  | SetIconOriginForIconCentered => setIconOriginForIconCentered this
  | SetIconOriginForIconBottomCentered bottomMargin =>
      setIconOriginForIconBottomCentered this bottomMargin
  | SetIconOriginForIconOnBottomLeft bottomMargin fromCenterMargin =>
      setIconOriginForIconOnBottomLeft this bottomMargin fromCenterMargin
  | TranslateIconOrigin dx dy => translateIconOrigin this dx dy
  | ArcTo rx ry angle largeArcFlag sweepFlag x y =>
      arcTo this rx ry angle largeArcFlag sweepFlag x y
  | Begin => begin this
  | Close => close this
  | CurveTo x1 y1 x2 y2 x3 y3 => curveTo this x1 y1 x2 y2 x3 y3
  | Fill => fill this
  | FillAndStroke => fillAndStroke this
  | Stroke => stroke this
  | SetStrokeColor color => setStrokeColor this color
  | SetRoundLineJoin => setRoundLineJoin this
  | LineTo x y => lineTo this x y
  | MoveTo x y => moveTo this x y
  | Rect x y w h => rect this x y w h
  | Roundrect x y w h dx dy => roundrect this x y w h dx dy
  | Ellipse x y w h => ellipse this x y w h
  | Rotate theta flipH flipV cx cy => rotate this theta flipH flipV cx cy
  end.

(** A sequence of method calls, in order. *)
Definition run (this : BpmnCanvas) (calls : list method) : BpmnCanvas :=
  fold_left invoke calls this.

(** The scale factors the constructor assigns. *)
Definition constructorScale (shapeConfiguration : ShapeConfiguration)
           (iconConfiguration : IconConfiguration) : number * number :=
  let iconOriginalSize := originalSize iconConfiguration in
  match ratioFromShape iconConfiguration with
  | Some ratioFromShape =>
      if truthy ratioFromShape
      then
        let scaledIconSize :=
          computeScaledIconSize iconOriginalSize (style iconConfiguration)
                                shapeConfiguration ratioFromShape in
        (width scaledIconSize / width iconOriginalSize,
         height scaledIconSize / height iconOriginalSize)
      else (1, 1)
  | None => (1, 1)
  end.

(** [new BpmnCanvas({ mxCanvas, shapeConfiguration, iconConfiguration })] *)
Definition new (mxCanvas : list mxCall)
           (shapeConfiguration : ShapeConfiguration)
           (iconConfiguration : IconConfiguration) : BpmnCanvas :=
  let scale := constructorScale shapeConfiguration iconConfiguration in
  let this :=
    {| c := mxCanvas;
       iconOriginalSize := originalSize iconConfiguration;
       scaleX := fst scale;
       scaleY := snd scale;
       iconPaintingOriginX := 0;
       iconPaintingOriginY := 0;
       shapeConfiguration := shapeConfiguration |} in
  let this := updateCanvasStyle this (style iconConfiguration) in
  run this (setIconOrigin iconConfiguration).

End StyleDefault.

(** What no method assigns: the scale factors, the original size of the
    icon and the shape. *)
Definition sameFixedFields (a b : BpmnCanvas) : Prop :=
  scaleX a = scaleX b /\
  scaleY a = scaleY b /\
  iconOriginalSize a = iconOriginalSize b /\
  shapeConfiguration a = shapeConfiguration b.

(** The methods that place the origin from the shape: the five
    [setIconOrigin...] methods. *)
Definition placesOrigin (m : method) : bool :=
  match m with
  | SetIconOriginToShapeTopLeftProportionally _
  | SetIconOriginToShapeTopLeft _ _
  | SetIconOriginForIconCentered
  | SetIconOriginForIconBottomCentered _
  | SetIconOriginForIconOnBottomLeft _ _ => true
  | _ => false
  end.

(** The methods that assign the origin: the placements and
    [translateIconOrigin].  Every other method forwards a call. *)
Definition movesOrigin (m : method) : bool :=
  match m with
  | TranslateIconOrigin _ _ => true
  | other => placesOrigin other
  end.

End Canvas.

(* ================================================================== *)
(** * Configurations of the examples *)
(* ================================================================== *)

Module Examples.
Import Js RenderTypes Canvas.
Local Open Scope Qc_scope.

(** A style with the given stroke width; the colours play no part in the
    sizes. *)
Definition styleOfStrokeWidth (strokeWidth : number) : IconStyleConfiguration :=
  {| isFilled := false;
     strokeColor := "black";
     fillColor := "white";
     strokeWidth := strokeWidth |}.

(** An icon twice as wide as it is high, on a square shape, drawn with a
    stroke of width 2 at the full size of the shape. *)
Definition wideIconSize : Size := {| width := ofZ 4; height := ofZ 2 |}.

Definition squareShape : ShapeConfiguration :=
  {| x := 0; y := 0; w := ofZ 8; h := ofZ 8 |}.

Definition wideIconThickStroke (setIconOrigin : list method)
  : IconConfiguration :=
  {| originalSize := wideIconSize;
     style := styleOfStrokeWidth (ofZ 2);
     ratioFromShape := Some 1;
     setIconOrigin := setIconOrigin |}.

(** A canvas whose icon is placed at (10, 20) and scaled by 2 and 3. *)
Definition placedCanvas : BpmnCanvas :=
  {| c := [];
     iconOriginalSize := wideIconSize;
     scaleX := ofZ 2;
     scaleY := ofZ 3;
     iconPaintingOriginX := ofZ 10;
     iconPaintingOriginY := ofZ 20;
     shapeConfiguration := squareShape |}.

(** A margin standing for the four margins of [StyleDefault] in the
    examples, and [invoke] with it. *)
Definition exampleMargin : number := ofZ 7.

Definition invokeWithMargin : BpmnCanvas -> method -> BpmnCanvas :=
  invoke exampleMargin exampleMargin exampleMargin exampleMargin.

(** A shape flatter than the wide icon, and an icon configuration with
    no ratio. *)
Definition flatShape : ShapeConfiguration :=
  {| x := 0; y := 0; w := ofZ 8; h := 1 |}.

Definition unscaledIcon : IconConfiguration :=
  {| originalSize := wideIconSize;
     style := styleOfStrokeWidth 1;
     ratioFromShape := None;
     setIconOrigin := [] |}.

(** [run] and [new] with the margin of the examples. *)
Definition runWithMargin : BpmnCanvas -> list method -> BpmnCanvas :=
  run exampleMargin exampleMargin exampleMargin exampleMargin.

Definition newWithMargin
  : list mxCall -> ShapeConfiguration -> IconConfiguration -> BpmnCanvas :=
  new exampleMargin exampleMargin exampleMargin exampleMargin.

End Examples.

(* ================================================================== *)
(** * Strings of code units and the filter predicate on them *)
(* ================================================================== *)

Module JsUnicode.
Local Open Scope N_scope.

(** A JavaScript string: its UTF-16 code units. *)
Definition ustring : Set := list N.

(** The code units of an ASCII literal. *)
Definition codeUnits (s : string) : ustring :=
  map N_of_ascii (list_ascii_of_string s).

Fixpoint eqb (s t : ustring) : bool :=
  match s, t with
  | [], [] => true
  | a :: s', b :: t' => (a =? b) && eqb s' t'
  | _, _ => false
  end.

(** [String.prototype.endsWith]: some tail of [s] is [suffix]. *)
Fixpoint endsWith (s suffix : ustring) : bool :=
  if eqb s suffix then true
  else match s with
       | [] => false
       | _ :: s' => endsWith s' suffix
       end.

(** The letters with a case among Basic Latin and the Greek alphabet
    (U+0391 to U+03A9 and U+03B1 to U+03C9), the code units this module
    lower-cases; every other code unit is left as it is. *)
Definition isCased (u : N) : bool :=
  ((65 <=? u) && (u <=? 90)) || ((97 <=? u) && (u <=? 122))
  || ((913 <=? u) && (u <=? 937) && negb (u =? 930))
  || ((945 <=? u) && (u <=? 969)).

(** The case-ignorable characters of Basic Latin: the apostrophe, the full
    stop, the colon, the circumflex and the grave accent. *)
Definition isCaseIgnorable (u : N) : bool :=
  (u =? 39) || (u =? 46) || (u =? 58) || (u =? 94) || (u =? 96).

(** U+03A3, the capital sigma. *)
Definition capitalSigma : N := 931.

(** The lower case of a code unit other than the capital sigma. *)
Definition lowerUnit (u : N) : N :=
  if ((65 <=? u) && (u <=? 90))
     || ((913 <=? u) && (u <=? 937) && negb (u =? 930))
  then u + 32
  else u.

(** After case-ignorable characters, a cased letter follows. *)
Fixpoint followedByCased (rest : ustring) : bool :=
  match rest with
  | [] => false
  | u :: rest' =>
      if isCaseIgnorable u then followedByCased rest' else isCased u
  end.

(** [String.prototype.toLowerCase], from left to right.  [afterCased] says
    that a cased letter, then only case-ignorable characters, come before.
    A capital sigma in that place with no cased letter after it is a final
    sigma and becomes U+03C2; any other capital sigma becomes U+03C3. *)
Fixpoint toLowerCaseFrom (afterCased : bool) (s : ustring) : ustring :=
  match s with
  | [] => []
  | u :: rest =>
      (if u =? capitalSigma
       then if afterCased && negb (followedByCased rest) then 962 else 963
       else lowerUnit u)
      :: toLowerCaseFrom
           (if isCased u then true
            else if isCaseIgnorable u then afterCased else false)
           rest
  end.

Definition toLowerCase (s : ustring) : ustring := toLowerCaseFrom false s.

(** Every code unit is ASCII. *)
Definition isAscii (s : ustring) : bool := forallb (fun u => u <? 128) s.

(** The arrow function handed to [filter] in [filterKind], and
    [filterKind] over an enumeration, on strings of code units. *)
Definition filterKindPredicate (suffix : ustring) (ignoreCase : bool)
           (kind : ustring) : bool :=
  if ignoreCase
  then endsWith kind suffix
       || endsWith (toLowerCase kind) (toLowerCase suffix)
  else endsWith kind suffix.

Definition filterKind (ShapeBpmnElementKind : list ustring)
           (suffix : ustring) (ignoreCase : bool) : list ustring :=
  filter (filterKindPredicate suffix ignoreCase) ShapeBpmnElementKind.

End JsUnicode.

(* ================================================================== *)
(** * The translation and the mapping of coordinates on binary64 *)
(* ================================================================== *)

Module Binary64.
Local Open Scope float_scope.

(** The numeric fields of the class that the translation and the mapping
    of coordinates read and write. *)
Record BpmnCanvas : Set :=
  { scaleX : float;
    scaleY : float;
    iconPaintingOriginX : float;
    iconPaintingOriginY : float }.

Definition translateIconOrigin (this : BpmnCanvas) (dx dy : float)
  : BpmnCanvas :=
  {| scaleX := scaleX this;
     scaleY := scaleY this;
     iconPaintingOriginX := iconPaintingOriginX this + scaleX this * dx;
     iconPaintingOriginY := iconPaintingOriginY this + scaleY this * dy |}.

Definition computeScaleFromOriginX (this : BpmnCanvas) (x : float) : float :=
  iconPaintingOriginX this + x * scaleX this.

Definition computeScaleFromOriginY (this : BpmnCanvas) (y : float) : float :=
  iconPaintingOriginY this + y * scaleY this.

(** The two coordinates [moveTo] forwards. *)
Definition moveTo (this : BpmnCanvas) (x y : float) : float * float :=
  (computeScaleFromOriginX this x, computeScaleFromOriginY this y).

(** A canvas at the origin (0, 0) whose two scale factors are the binary64
    number written 0.7. *)
Definition scaledBySevenTenths : BpmnCanvas :=
  {| scaleX := 0x1.6666666666666p-1;
     scaleY := 0x1.6666666666666p-1;
     iconPaintingOriginX := 0;
     iconPaintingOriginY := 0 |}.

End Binary64.

(* ================================================================== *)
(** * Properties of the JavaScript layer *)
(* ================================================================== *)

Import Js ShapeUtil RenderTypes IconSize Canvas Examples.

(** Closes a goal between closed numbers by evaluation. *)
Ltac qc_eval :=
  lazymatch goal with
  | |- @eq Qc _ _ => apply Qc_is_canon; vm_compute; reflexivity
  | |- Qclt _ _ => vm_compute; reflexivity
  | |- Qcle _ _ => vm_compute; discriminate
  | |- _ <> _ => let E := fresh in intros E; vm_compute in E; discriminate E
  | |- _ => vm_compute; reflexivity
  end.

Section StringFacts.
Local Open Scope string_scope.

Lemma endsWith_refl (s : string) : endsWith s s = true.
Proof.
  destruct s as [|a s]; simpl.
  - reflexivity.
  - now rewrite Ascii.eqb_refl, String.eqb_refl.
Qed.

(** [endsWith] answers [true] exactly on the strings that are some prefix
    followed by the suffix. *)
Lemma endsWith_spec (s suffix : string) :
  endsWith s suffix = true <-> exists prefix, s = prefix ++ suffix.
Proof.
  split.
  - induction s as [|a s IH]; cbn [endsWith].
    + destruct suffix as [|b t]; simpl; [|discriminate].
      intros _. now exists "".
    + destruct (String.eqb (String a s) suffix) eqn:E.
      * intros _. apply String.eqb_eq in E. now exists "".
      * intros H. destruct (IH H) as [p ->]. now exists (String a p).
  - intros [p ->]. induction p as [|a p IH].
    + apply endsWith_refl.
    + change (String a p ++ suffix) with (String a (p ++ suffix)).
      cbn [endsWith]. rewrite IH.
      now destruct (String.eqb (String a (p ++ suffix)) suffix).
Qed.

Lemma toLowerCase_app (s t : string) :
  toLowerCase (s ++ t) = toLowerCase s ++ toLowerCase t.
Proof.
  induction s as [|a s IH]; simpl; [reflexivity | now rewrite IH].
Qed.

(** A suffix stays a suffix when both strings are put in lower case. *)
Lemma endsWith_toLowerCase (s suffix : string) :
  endsWith s suffix = true ->
  endsWith (toLowerCase s) (toLowerCase suffix) = true.
Proof.
  intros H. apply endsWith_spec in H. destruct H as [p ->].
  apply endsWith_spec. exists (toLowerCase p). apply toLowerCase_app.
Qed.

Lemma includes_In (l : list string) (k : string) :
  includes l k = true <-> In k l.
Proof.
  unfold includes. rewrite existsb_exists. split.
  - intros [y [Hy E]]. apply String.eqb_eq in E. now subst.
  - intros H. exists k. split; [assumption | apply String.eqb_refl].
Qed.

End StringFacts.

Section NumberFacts.
Local Open Scope Qc_scope.

Lemma eqb_spec (a b : number) : eqb a b = true <-> a = b.
Proof.
  unfold eqb. rewrite Qeq_bool_iff. split.
  - apply Qc_is_canon.
  - now intros ->.
Qed.

Lemma ltb_spec (a b : number) : ltb a b = true <-> a < b.
Proof.
  unfold ltb. rewrite Qclt_alt.
  destruct (a ?= b); split; congruence.
Qed.

Lemma leb_spec (a b : number) : leb a b = true <-> a <= b.
Proof.
  unfold leb. rewrite Qcle_alt.
  destruct (a ?= b); split; congruence.
Qed.

Lemma truthy_spec (a : number) : truthy a = true <-> a <> 0.
Proof.
  unfold truthy. rewrite negb_true_iff, <- not_true_iff_false, eqb_spec.
  reflexivity.
Qed.

Lemma truthy_false (a : number) : truthy a = false <-> a = 0.
Proof.
  unfold truthy. rewrite negb_false_iff. apply eqb_spec.
Qed.

Lemma ltb_irrefl (a : number) : ltb a a = false.
Proof.
  destruct (ltb a a) eqn:E; [|reflexivity].
  apply ltb_spec in E. now apply Qclt_not_eq in E.
Qed.

Lemma eqb_refl (a : number) : eqb a a = true.
Proof. now apply eqb_spec. Qed.

Lemma minus_le_of_nonneg (a i : number) : 0 <= i -> a - i <= a.
Proof.
  intros H. apply Qcle_minus_iff.
  now replace (a + - (a - i)) with i by ring.
Qed.

Lemma lt_minus_of_neg (a i : number) : i < 0 -> a < a - i.
Proof.
  intros H. apply Qclt_minus_iff.
  replace (a - i + - a) with (0 + - i) by ring.
  apply Qclt_minus_iff in H. exact H.
Qed.

End NumberFacts.

(* ================================================================== *)
(** * The kind classification *)
(* ================================================================== *)

Section KindFacts.
Local Open Scope string_scope.

Lemma filterKind_In (kinds : list string) (suffix : string) (ignoreCase : bool)
      (kind : string) :
  In kind (filterKind kinds suffix ignoreCase) <->
  In kind kinds /\ filterKindPredicate suffix ignoreCase kind = true.
Proof. unfold filterKind. apply filter_In. Qed.

(** [isEvent] holds of the kinds of the enumeration that end with
    ["Event"], letter case included. *)
Lemma isEvent_spec (kinds : list string) (kind : string) :
  isEvent kinds kind = true <->
  In kind kinds /\ endsWith kind "Event" = true.
Proof.
  unfold isEvent, EVENT_KINDS. rewrite includes_In, filterKind_In.
  reflexivity.
Qed.

(** C2, as stated, fails: in the identifier set START_EVENT, END_EVENT,
    USER_TASK, EXCLUSIVE_GATEWAY the identifier START_EVENT does not end
    with ["Event"] (the comparison distinguishes letter case), so
    [isEvent] answers [false] for it. *)
Lemma isEvent_START_EVENT_false :
  isEvent upperSnakeKinds "START_EVENT" = false.
Proof. reflexivity. Qed.

(** C2, amended: over the identifier set START_EVENT, END_EVENT, USER_TASK,
    EXCLUSIVE_GATEWAY, [isEvent] answers [false] for every identifier,
    because none ends with ["Event"] in that letter case, and [taskKinds]
    is exactly USER_TASK, which only the comparison ignoring letter case
    finds.  Over the same kinds spelled startEvent, endEvent, userTask,
    exclusiveGateway, [isEvent] answers [true] for exactly startEvent and
    endEvent and [taskKinds] is exactly userTask. *)
Theorem kind_classification_example :
  (forall kind, isEvent upperSnakeKinds kind = false) /\
  taskKinds upperSnakeKinds = ["USER_TASK"] /\
  filterKind upperSnakeKinds "Task" false = [] /\
  (forall kind,
      isEvent camelKinds kind = true <->
      kind = "startEvent" \/ kind = "endEvent") /\
  taskKinds camelKinds = ["userTask"].
Proof.
  repeat split; try reflexivity.
  - intros H. apply isEvent_spec in H. destruct H as [Hin Hend].
    simpl in Hin.
    destruct Hin as [<-|[<-|[<-|[<-|[]]]]];
      first [now left | now right | discriminate Hend].
  - intros [->| ->]; reflexivity.
Qed.

(** On ASCII text, as [string] holds it, the first disjunct of the
    predicate of [filterKind] with [ignoreCase] set changes nothing: the
    predicate is the suffix test on the two strings in lower case, and so
    is the filter built from it. *)
Theorem filterKind_ignoreCase_is_lowercase_suffix_match :
  forall (kinds : list string) (suffix : string),
    (forall kind,
        filterKindPredicate suffix true kind
        = endsWith (toLowerCase kind) (toLowerCase suffix)) /\
    filterKind kinds suffix true
    = filter (fun kind => endsWith (toLowerCase kind) (toLowerCase suffix))
             kinds.
Proof.
  intros kinds suffix.
  assert (E : forall kind,
             filterKindPredicate suffix true kind
             = endsWith (toLowerCase kind) (toLowerCase suffix)).
  { intros kind. unfold filterKindPredicate.
    destruct (endsWith kind suffix) eqn:H; [|reflexivity].
    symmetry. now apply endsWith_toLowerCase. }
  split; [exact E|].
  unfold filterKind. apply filter_ext. exact E.
Qed.

End KindFacts.

(* ================================================================== *)
(** * The filter predicate on every string *)
(* ================================================================== *)

Section UnicodeKindFacts.
Import JsUnicode.
Local Open Scope N_scope.

Lemma ustring_eqb_eq (s t : ustring) : JsUnicode.eqb s t = true <-> s = t.
Proof.
  revert t. induction s as [|a s IH]; intros [|b t]; cbn [JsUnicode.eqb];
    try (split; [discriminate | discriminate]); [now split|].
  rewrite andb_true_iff, N.eqb_eq, IH. split.
  - intros [-> ->]. reflexivity.
  - intros E. injection E as -> ->. now split.
Qed.

Lemma ustring_endsWith_spec (s suffix : ustring) :
  JsUnicode.endsWith s suffix = true <-> exists prefix, s = (prefix ++ suffix)%list.
Proof.
  split.
  - induction s as [|a s IH]; cbn [JsUnicode.endsWith].
    + destruct (JsUnicode.eqb [] suffix) eqn:E; [|discriminate].
      apply ustring_eqb_eq in E. intros _. now exists [].
    + destruct (JsUnicode.eqb (a :: s) suffix) eqn:E.
      * apply ustring_eqb_eq in E. intros _. now exists [].
      * intros H. destruct (IH H) as [p ->]. now exists (a :: p).
  - intros [p ->]. induction p as [|a p IH].
    + cbn [app]. destruct suffix as [|b t]; cbn [JsUnicode.endsWith].
      * reflexivity.
      * replace (JsUnicode.eqb (b :: t) (b :: t)) with true; [reflexivity|].
        symmetry. now apply ustring_eqb_eq.
    + cbn [app JsUnicode.endsWith]. rewrite IH.
      now destruct (JsUnicode.eqb (a :: (p ++ suffix)%list) suffix).
Qed.

(** On ASCII text no capital sigma occurs, and lower-casing acts on each
    code unit by itself. *)
Lemma toLowerCaseFrom_ascii (s : ustring) :
  forall afterCased : bool,
    isAscii s = true -> toLowerCaseFrom afterCased s = map lowerUnit s.
Proof.
  induction s as [|u s IH]; intros afterCased H; [reflexivity|].
  cbn [isAscii forallb] in H. apply andb_true_iff in H. destruct H as [U H].
  cbn [toLowerCaseFrom map].
  replace (u =? capitalSigma) with false.
  - f_equal. now apply IH.
  - symmetry. apply N.eqb_neq. apply N.ltb_lt in U. unfold capitalSigma. lia.
Qed.

Lemma isAscii_app (s t : ustring) :
  isAscii (s ++ t)%list = isAscii s && isAscii t.
Proof. unfold isAscii. apply forallb_app. Qed.

Lemma endsWith_toLowerCase_ascii (kind suffix : ustring) :
  isAscii kind = true ->
  JsUnicode.endsWith kind suffix = true ->
  JsUnicode.endsWith (JsUnicode.toLowerCase kind)
                     (JsUnicode.toLowerCase suffix) = true.
Proof.
  intros A H. apply ustring_endsWith_spec in H. destruct H as [p ->].
  rewrite isAscii_app in A. apply andb_true_iff in A. destruct A as [Ap As].
  apply ustring_endsWith_spec. exists (map lowerUnit p).
  unfold JsUnicode.toLowerCase.
  rewrite (toLowerCaseFrom_ascii suffix false As).
  rewrite toLowerCaseFrom_ascii by (rewrite isAscii_app, Ap, As; reflexivity).
  apply map_app.
Qed.

(** The two lower-casings agree on every character [string] can hold that
    is ASCII: the code units of the lower case are the lower case of the
    code units. *)
Lemma lowerChar_lowerUnit (a : ascii) :
  N_of_ascii (lowerChar a) = lowerUnit (N_of_ascii a).
Proof.
  destruct a as [[] [] [] [] [] [] [] []]; vm_compute; reflexivity.
Qed.

Lemma toLowerCase_models_agree_on_ascii (s : string) :
  isAscii (codeUnits s) = true ->
  codeUnits (Js.toLowerCase s) = JsUnicode.toLowerCase (codeUnits s).
Proof.
  intros A. unfold JsUnicode.toLowerCase.
  rewrite (toLowerCaseFrom_ascii (codeUnits s) false A). clear A.
  unfold codeUnits. induction s as [|a s IH]; [reflexivity|].
  cbn [Js.toLowerCase list_ascii_of_string map].
  now rewrite IH, lowerChar_lowerUnit.
Qed.

(** C10, as stated, fails: for the kind made of a capital alpha and a
    capital sigma and the suffix made of a capital sigma, the kind ends
    with the suffix, so the predicate holds by its first disjunct; but in
    lower case the kind ends with a final sigma (U+03C2) and the suffix
    is the other small sigma (U+03C3), so the second disjunct alone
    fails. *)
Lemma ignoreCase_first_disjunct_decides_for_final_sigma :
  let kind := [913; 931] in
  let suffix := [931] in
  JsUnicode.toLowerCase kind = [945; 962] /\
  JsUnicode.toLowerCase suffix = [963] /\
  JsUnicode.filterKindPredicate suffix true kind = true /\
  JsUnicode.endsWith (JsUnicode.toLowerCase kind)
                     (JsUnicode.toLowerCase suffix) = false.
Proof. repeat split. Qed.

(** C10, amended: for a kind made of ASCII characters and any suffix, the
    first disjunct of the predicate of [filterKind] with [ignoreCase] set
    changes nothing: the predicate is the suffix test on the two strings
    in lower case; and over an enumeration of such kinds the filter is the
    filter by that test. *)
Theorem filterKind_ignoreCase_redundant_for_ascii_kinds :
  forall (kinds : list ustring) (suffix : ustring),
    (forall kind,
        isAscii kind = true ->
        JsUnicode.filterKindPredicate suffix true kind
        = JsUnicode.endsWith (JsUnicode.toLowerCase kind)
                             (JsUnicode.toLowerCase suffix)) /\
    (forallb isAscii kinds = true ->
     JsUnicode.filterKind kinds suffix true
     = filter (fun kind =>
                 JsUnicode.endsWith (JsUnicode.toLowerCase kind)
                                    (JsUnicode.toLowerCase suffix))
              kinds).
Proof.
  intros kinds suffix.
  assert (E : forall kind,
             isAscii kind = true ->
             JsUnicode.filterKindPredicate suffix true kind
             = JsUnicode.endsWith (JsUnicode.toLowerCase kind)
                                  (JsUnicode.toLowerCase suffix)).
  { intros kind A. unfold JsUnicode.filterKindPredicate.
    destruct (JsUnicode.endsWith kind suffix) eqn:H; [|reflexivity].
    symmetry. now apply endsWith_toLowerCase_ascii. }
  split; [exact E|].
  intros A. unfold JsUnicode.filterKind. apply filter_ext_in.
  intros kind Hin. apply E.
  rewrite forallb_forall in A. now apply A.
Qed.

Lemma filterKind_ignoreCase_redundant_for_ascii_kinds_witness :
  let kinds := map codeUnits ["startEvent"; "USER_TASK"; "userTask"]%string in
  let suffix := codeUnits "Task" in
  JsUnicode.filterKindPredicate suffix true (codeUnits "USER_TASK")
  = JsUnicode.endsWith (JsUnicode.toLowerCase (codeUnits "USER_TASK"))
                       (JsUnicode.toLowerCase suffix) /\
  JsUnicode.filterKind kinds suffix true
  = map codeUnits ["USER_TASK"; "userTask"]%string.
Proof.
  intros kinds suffix.
  destruct (filterKind_ignoreCase_redundant_for_ascii_kinds kinds suffix)
    as [P F].
  split.
  - apply P. reflexivity.
  - rewrite F; reflexivity.
Defined.

End UnicodeKindFacts.

(* ================================================================== *)
(** * The fitted icon size *)
(* ================================================================== *)

Section IconSizeFacts.
Local Open Scope Qc_scope.

(** The scenario of the specification: an icon of 100 by 50 on a shape of
    40 by 40 at (10, 10), ratio 1 and stroke width 1, is fitted to 40 by
    20. *)
Example computeScaledIconSize_scenario :
  computeScaledIconSize
    {| width := ofZ 100; height := ofZ 50 |}
    (styleOfStrokeWidth 1)
    {| x := ofZ 10; y := ofZ 10; w := ofZ 40; h := ofZ 40 |}
    1
  = {| width := ofZ 40; height := ofZ 20 |}.
Proof.
  unfold computeScaledIconSize. f_equal; qc_eval.
Qed.

Lemma inset_truthy (st : IconStyleConfiguration) :
  strokeWidth st <> 0 -> inset st = (strokeWidth st - 1) * ofZ 2.
Proof.
  intros H. unfold inset. apply truthy_spec in H. now rewrite H.
Qed.

Lemma inset_falsy (st : IconStyleConfiguration) :
  strokeWidth st = 0 -> inset st = 0.
Proof.
  intros H. unfold inset. apply truthy_false in H. now rewrite H.
Qed.

Lemma inset_nonneg (st : IconStyleConfiguration) :
  strokeWidth st = 0 \/ 1 <= strokeWidth st -> 0 <= inset st.
Proof.
  intros [H|H].
  - rewrite (inset_falsy st H). apply Qcle_refl.
  - unfold inset. destruct (truthy (strokeWidth st)); [|apply Qcle_refl].
    replace 0 with (0 * ofZ 2) by ring.
    apply Qcmult_le_compat_r; [|qc_eval].
    apply Qcle_minus_iff in H. exact H.
Qed.




Lemma fitsShapeWidth_square (icon : Size) (shape : ShapeConfiguration) :
  width icon = height icon ->
  fitsShapeWidth icon shape = leb (w shape) (h shape).
Proof.
  intros E. unfold fitsShapeWidth. rewrite E, ltb_irrefl, eqb_refl.
  reflexivity.
Qed.

(** C4: for a square icon the limiting side follows the orientation of the
    shape.  When [shape.w <= shape.h] the proportional size is
    [shape.w] by [shape.w * height / width], and [computeScaledIconSize]
    returns these two times [ratioFromShape], less the inset; when
    [shape.w > shape.h] the proportional size is
    [shape.h * width / height] by [shape.h], and the returned size is
    built from these in the same way. *)
Theorem square_icon_fit_follows_shape_orientation :
  forall (icon : Size) (st : IconStyleConfiguration)
         (shape : ShapeConfiguration) (ratioFromShape : number),
    width icon = height icon ->
    (w shape <= h shape ->
     iconSizeProportionalToShape icon shape
     = {| width := w shape;
          height := (w shape * height icon) / width icon |}
     /\
     computeScaledIconSize icon st shape ratioFromShape
     = {| width := w shape * ratioFromShape - inset st;
          height := (w shape * height icon) / width icon * ratioFromShape
                    - inset st |})
    /\
    (h shape < w shape ->
     iconSizeProportionalToShape icon shape
     = {| width := (h shape * width icon) / height icon;
          height := h shape |}
     /\
     computeScaledIconSize icon st shape ratioFromShape
     = {| width := (h shape * width icon) / height icon * ratioFromShape
                   - inset st;
          height := h shape * ratioFromShape - inset st |}).
Proof.
  intros icon st shape r E.
  unfold computeScaledIconSize, iconSizeProportionalToShape.
  rewrite (fitsShapeWidth_square icon shape E). split; intros H.
  - apply leb_spec in H. rewrite H. now split.
  - destruct (leb (w shape) (h shape)) eqn:L; [|now split].
    apply leb_spec in L. now apply Qcle_not_lt in L.
Qed.

Lemma square_icon_fit_follows_shape_orientation_witness :
  let icon := {| width := ofZ 4; height := ofZ 4 |} in
  let st := styleOfStrokeWidth (ofZ 3) in
  let tall := {| x := 0; y := 0; w := ofZ 6; h := ofZ 8 |} in
  let wide := {| x := 0; y := 0; w := ofZ 8; h := ofZ 5 |} in
  (width icon = height icon /\ w tall <= h tall /\ h wide < w wide) /\
  iconSizeProportionalToShape icon tall
  = {| width := w tall; height := (w tall * height icon) / width icon |} /\
  computeScaledIconSize icon st tall 1
  = {| width := ofZ 2; height := ofZ 2 |} /\
  iconSizeProportionalToShape icon wide
  = {| width := (h wide * width icon) / height icon; height := h wide |} /\
  computeScaledIconSize icon st wide 1
  = {| width := 1; height := 1 |}.
Proof.
  intros icon st tall wide.
  assert (E : width icon = height icon) by reflexivity.
  assert (T : w tall <= h tall) by qc_eval.
  assert (W : h wide < w wide) by qc_eval.
  destruct (proj1 (square_icon_fit_follows_shape_orientation
                     icon st tall 1 E) T) as [PT ST].
  destruct (proj2 (square_icon_fit_follows_shape_orientation
                     icon st wide 1 E) W) as [PW SW].
  split; [now repeat split|].
  split; [exact PT|]. split; [|split; [exact PW|]].
  - rewrite ST. f_equal; qc_eval.
  - rewrite SW. f_equal; qc_eval.
Defined.

(** C5: the inset is [(strokeWidth - 1) * 2] for a stroke width other
    than zero and [0] for zero, and the returned size is, on each axis,
    the proportional size times [ratioFromShape] minus that inset; a
    stroke width of 1 gives the inset 0 and a stroke width of 3 the
    inset 4. *)
Theorem inset_of_strokeWidth :
  forall (icon : Size) (st : IconStyleConfiguration)
         (shape : ShapeConfiguration) (ratioFromShape : number),
    computeScaledIconSize icon st shape ratioFromShape
    = {| width := width (iconSizeProportionalToShape icon shape)
                  * ratioFromShape - inset st;
         height := height (iconSizeProportionalToShape icon shape)
                   * ratioFromShape - inset st |}
    /\ (strokeWidth st <> 0 -> inset st = (strokeWidth st - 1) * ofZ 2)
    /\ (strokeWidth st = 0 -> inset st = 0)
    /\ (strokeWidth st = 1 -> inset st = 0)
    /\ (strokeWidth st = ofZ 3 -> inset st = ofZ 4).
Proof.
  intros icon st shape r. split; [reflexivity|].
  split; [apply inset_truthy|]. split; [apply inset_falsy|].
  split; intros E.
  - rewrite inset_truthy; rewrite E; qc_eval.
  - rewrite inset_truthy; rewrite E; qc_eval.
Qed.

Lemma inset_of_strokeWidth_witness :
  let icon := {| width := ofZ 100; height := ofZ 50 |} in
  let shape := {| x := ofZ 10; y := ofZ 10; w := ofZ 40; h := ofZ 40 |} in
  inset (styleOfStrokeWidth 1) = 0 /\
  inset (styleOfStrokeWidth (ofZ 3)) = ofZ 4 /\
  inset (styleOfStrokeWidth 0) = 0 /\
  computeScaledIconSize icon (styleOfStrokeWidth (ofZ 3)) shape 1
  = {| width := ofZ 36; height := ofZ 16 |}.
Proof.
  intros icon shape.
  pose proof (inset_of_strokeWidth icon (styleOfStrokeWidth 1) shape 1)
    as (_ & _ & _ & H1 & _).
  pose proof (inset_of_strokeWidth icon (styleOfStrokeWidth (ofZ 3)) shape 1)
    as (S3 & _ & _ & _ & H3).
  pose proof (inset_of_strokeWidth icon (styleOfStrokeWidth 0) shape 1)
    as (_ & _ & H0 & _ & _).
  split; [exact (H1 eq_refl)|]. split; [exact (H3 eq_refl)|].
  split; [exact (H0 eq_refl)|].
  rewrite S3, (H3 eq_refl). f_equal; qc_eval.
Defined.

(** C9: the fitted size reads the width and the height of the shape and
    nothing else of it: two shapes of the same width and height, wherever
    they are, give the same size. *)
Theorem computeScaledIconSize_ignores_shape_position :
  forall (icon : Size) (st : IconStyleConfiguration)
         (shape1 shape2 : ShapeConfiguration) (ratioFromShape : number),
    w shape1 = w shape2 ->
    h shape1 = h shape2 ->
    computeScaledIconSize icon st shape1 ratioFromShape
    = computeScaledIconSize icon st shape2 ratioFromShape.
Proof.
  intros icon st shape1 shape2 r Hw Hh.
  unfold computeScaledIconSize, iconSizeProportionalToShape, fitsShapeWidth.
  now rewrite Hw, Hh.
Qed.

Lemma computeScaledIconSize_ignores_shape_position_witness :
  let icon := {| width := ofZ 100; height := ofZ 50 |} in
  let shape1 := {| x := ofZ 10; y := ofZ 10; w := ofZ 40; h := ofZ 40 |} in
  let shape2 := {| x := ofZ 250; y := ofZ (-3); w := ofZ 40; h := ofZ 40 |} in
  computeScaledIconSize icon (styleOfStrokeWidth (ofZ 3)) shape1 1
  = computeScaledIconSize icon (styleOfStrokeWidth (ofZ 3)) shape2 1.
Proof.
  intros icon shape1 shape2.
  exact (computeScaledIconSize_ignores_shape_position
           icon (styleOfStrokeWidth (ofZ 3)) shape1 shape2 1
           eq_refl eq_refl).
Defined.

End IconSizeFacts.

(* ================================================================== *)
(** * The canvas *)
(* ================================================================== *)

Section CanvasFacts.
Local Open Scope Qc_scope.

(** The margins of [StyleDefault], whatever they are. *)
Variables topMargin leftMargin bottomMargin fromCenterMargin : number.

Local Abbreviation invoke :=
  (Canvas.invoke topMargin leftMargin bottomMargin fromCenterMargin).
Local Abbreviation run :=
  (Canvas.run topMargin leftMargin bottomMargin fromCenterMargin).
Local Abbreviation new :=
  (Canvas.new topMargin leftMargin bottomMargin fromCenterMargin).

Lemma sameFixedFields_refl (a : BpmnCanvas) : sameFixedFields a a.
Proof. now repeat split. Qed.

Lemma sameFixedFields_trans (a b d : BpmnCanvas) :
  sameFixedFields a b -> sameFixedFields b d -> sameFixedFields a d.
Proof.
  intros (A1 & A2 & A3 & A4) (B1 & B2 & B3 & B4).
  repeat split; congruence.
Qed.

Lemma forward_fixed (cv : BpmnCanvas) (call : mxCall) :
  sameFixedFields (forward cv call) cv.
Proof. now repeat split. Qed.

Lemma setOrigin_fixed (cv : BpmnCanvas) (ox oy : number) :
  sameFixedFields (setOrigin cv ox oy) cv.
Proof. now repeat split. Qed.

Lemma updateCanvasStyle_fixed (cv : BpmnCanvas) (st : IconStyleConfiguration) :
  sameFixedFields (updateCanvasStyle cv st) cv.
Proof.
  unfold updateCanvasStyle. destruct (isFilled st); now repeat split.
Qed.

Lemma invoke_fixed (cv : BpmnCanvas) (m : method) :
  sameFixedFields (invoke cv m) cv.
Proof.
  destruct m; first [apply forward_fixed | apply setOrigin_fixed].
Qed.

Lemma run_fixed (calls : list method) :
  forall cv, sameFixedFields (run cv calls) cv.
Proof.
  induction calls as [|m calls IH]; intros cv.
  - apply sameFixedFields_refl.
  - apply sameFixedFields_trans with (b := invoke cv m).
    + apply (IH (invoke cv m)).
    + apply invoke_fixed.
Qed.

(** The constructor leaves the scale factors as [constructorScale]
    computes them, whatever the callback [setIconOrigin] does. *)
Lemma new_scale (mxCanvas : list mxCall) (shape : ShapeConfiguration)
      (icon : IconConfiguration) :
  scaleX (new mxCanvas shape icon) = fst (constructorScale shape icon) /\
  scaleY (new mxCanvas shape icon) = snd (constructorScale shape icon).
Proof.
  unfold Canvas.new.
  match goal with
  | |- context [Canvas.run _ _ _ _ (updateCanvasStyle ?cv0 ?st) ?calls] =>
      destruct (run_fixed calls (updateCanvasStyle cv0 st)) as (X & Y & _);
      destruct (updateCanvasStyle_fixed cv0 st) as (X' & Y' & _)
  end.
  rewrite X, Y, X', Y'. now split.
Qed.

(** When the inset is zero the two scale factors of the constructor are
    equal: the fitting alone keeps the proportions of the icon. *)
Lemma constructorScale_uniform_without_inset
      (shape : ShapeConfiguration) (icon : IconConfiguration) :
  0 < width (originalSize icon) ->
  0 < height (originalSize icon) ->
  inset (style icon) = 0 ->
  fst (constructorScale shape icon) = snd (constructorScale shape icon).
Proof.
  intros HW HH HI.
  assert (NW : width (originalSize icon) <> 0)
    by (intros E; rewrite E in HW; now apply Qclt_not_eq in HW).
  assert (NH : height (originalSize icon) <> 0)
    by (intros E; rewrite E in HH; now apply Qclt_not_eq in HH).
  unfold constructorScale.
  destruct (ratioFromShape icon) as [r|]; [|reflexivity].
  destruct (truthy r); [|reflexivity].
  unfold computeScaledIconSize, iconSizeProportionalToShape.
  rewrite HI.
  destruct (fitsShapeWidth (originalSize icon) shape);
    cbn [fst snd width height]; field; auto.
Qed.

(** C1 fails on the code: for an icon of 4 by 2 on a shape of 8 by 8, with
    ratio 1 and a stroke of width 2, the inset 2 is taken from both sides
    of the fitted size 8 by 4, and the constructor sets [scaleX] to 3/2
    and [scaleY] to 1: the proportions of the icon are not kept. *)
Theorem inset_breaks_aspect_ratio :
  forall (mxCanvas : list mxCall) (setIconOrigin : list method),
    computeScaledIconSize wideIconSize (styleOfStrokeWidth (ofZ 2))
                          squareShape 1
    = {| width := ofZ 6; height := ofZ 2 |} /\
    scaleX (new mxCanvas squareShape (wideIconThickStroke setIconOrigin))
    = Q2Qc (3 # 2) /\
    scaleY (new mxCanvas squareShape (wideIconThickStroke setIconOrigin))
    = 1.
Proof.
  intros mxCanvas calls.
  destruct (new_scale mxCanvas squareShape (wideIconThickStroke calls))
    as [X Y].
  rewrite X, Y. split; [|split].
  - unfold computeScaledIconSize. f_equal; qc_eval.
  - qc_eval.
  - qc_eval.
Qed.

(** C6: [rotate] forwards the centre [(originX + cx, originY + cy)]: the
    coordinates of the centre are added to the origin as they are, and the
    call that reaches the wrapped canvas is the same whatever the scale
    factors of the canvas are. *)
Theorem rotate_center_is_not_scaled :
  forall (cv : BpmnCanvas) (theta : number) (flipH flipV : bool)
         (cx cy : number) (sx sy : number),
    c (rotate cv theta flipH flipV cx cy)
    = c cv ++ [MxRotate theta flipH flipV
                        (iconPaintingOriginX cv + cx)
                        (iconPaintingOriginY cv + cy)]
    /\
    c (rotate {| c := c cv;
                 iconOriginalSize := iconOriginalSize cv;
                 scaleX := sx;
                 scaleY := sy;
                 iconPaintingOriginX := iconPaintingOriginX cv;
                 iconPaintingOriginY := iconPaintingOriginY cv;
                 shapeConfiguration := shapeConfiguration cv |}
              theta flipH flipV cx cy)
    = c (rotate cv theta flipH flipV cx cy).
Proof. intros. split; reflexivity. Qed.

(** The rotation of the specification: on a canvas placed at (10, 20) and
    scaled by 2 and 3, [rotate(theta, false, false, 5, 5)] forwards the
    centre (15, 25). *)
Example rotate_placedCanvas (theta : number) :
  c (rotate placedCanvas theta false false (ofZ 5) (ofZ 5))
  = [MxRotate theta false false (ofZ 15) (ofZ 25)].
Proof.
  cbn. repeat f_equal; qc_eval.
Qed.

Lemma computeScaleFromOriginX_translate (cv : BpmnCanvas) (dx dy v : number) :
  computeScaleFromOriginX (translateIconOrigin cv dx dy) v
  = computeScaleFromOriginX cv (v + dx).
Proof.
  unfold computeScaleFromOriginX, translateIconOrigin, setOrigin; cbn.
  ring.
Qed.

Lemma computeScaleFromOriginY_translate (cv : BpmnCanvas) (dx dy v : number) :
  computeScaleFromOriginY (translateIconOrigin cv dx dy) v
  = computeScaleFromOriginY cv (v + dy).
Proof.
  unfold computeScaleFromOriginY, translateIconOrigin, setOrigin; cbn.
  ring.
Qed.

(** C7, amended: [translateIconOrigin] sets the origin to
    [(originX + scaleX * dx, originY + scaleY * dy)] and leaves the scale
    factors alone, so a coordinate [v] is then mapped to
    [(originX + scaleX * dx) + v * scaleX].  In exact arithmetic this is
    the value [v + dx] is mapped to before the translation: a method that
    forwards mapped coordinates (arcTo, curveTo, lineTo, moveTo, rect,
    roundrect, ellipse), called after the translation, lets the wrapped
    canvas receive the calls it receives when the same method is called
    before the translation with every coordinate moved by [(dx, dy)].
    [rotate], whose centre is not scaled, is then forwarded as it is
    before the translation with the centre moved by
    [(scaleX * dx, scaleY * dy)]. *)
Theorem translateIconOrigin_moves_origin_by_scaled_delta :
  forall (cv : BpmnCanvas) (dx dy : number),
    iconPaintingOriginX (translateIconOrigin cv dx dy)
    = iconPaintingOriginX cv + scaleX cv * dx /\
    iconPaintingOriginY (translateIconOrigin cv dx dy)
    = iconPaintingOriginY cv + scaleY cv * dy /\
    scaleX (translateIconOrigin cv dx dy) = scaleX cv /\
    scaleY (translateIconOrigin cv dx dy) = scaleY cv /\
    (forall v : number,
        computeScaleFromOriginX (translateIconOrigin cv dx dy) v
        = (iconPaintingOriginX cv + scaleX cv * dx) + v * scaleX cv /\
        computeScaleFromOriginY (translateIconOrigin cv dx dy) v
        = (iconPaintingOriginY cv + scaleY cv * dy) + v * scaleY cv) /\
    (forall m : method,
        usesScaledCoordinates m = true ->
        c (invoke (translateIconOrigin cv dx dy) m)
        = c (invoke cv (shifted dx dy m))) /\
    (forall (theta : number) (flipH flipV : bool) (cx cy : number),
        c (rotate (translateIconOrigin cv dx dy) theta flipH flipV cx cy)
        = c (rotate cv theta flipH flipV
                    (scaleX cv * dx + cx) (scaleY cv * dy + cy))).
Proof.
  intros cv dx dy.
  do 4 (split; [reflexivity|]). split; [|split].
  - intros v. split; reflexivity.
  - intros m Hm.
    destruct m; try discriminate Hm;
      cbn [Canvas.invoke shifted arcTo curveTo lineTo moveTo rect roundrect
           ellipse forward c];
      rewrite ?computeScaleFromOriginX_translate,
              ?computeScaleFromOriginY_translate;
      reflexivity.
  - intros theta flipH flipV cx cy.
    unfold rotate, translateIconOrigin, setOrigin, forward.
    cbn [c iconPaintingOriginX iconPaintingOriginY].
    do 2 f_equal. f_equal; ring.
Qed.

(** C8: no sequence of method calls changes the scale factors (nor the
    original size of the icon, nor the shape): after the constructor
    only the origin, and the wrapped canvas, change. *)
Theorem scale_factors_fixed_after_construction :
  forall (cv : BpmnCanvas) (calls : list method),
    scaleX (run cv calls) = scaleX cv /\
    scaleY (run cv calls) = scaleY cv /\
    iconOriginalSize (run cv calls) = iconOriginalSize cv /\
    shapeConfiguration (run cv calls) = shapeConfiguration cv.
Proof. intros cv calls. exact (run_fixed calls cv). Qed.

End CanvasFacts.

Lemma translateIconOrigin_moves_origin_by_scaled_delta_witness :
  usesScaledCoordinates (MoveTo (ofZ 1) (ofZ 1)) = true /\
  iconPaintingOriginX (translateIconOrigin placedCanvas (ofZ 4) (ofZ 5))
  = ofZ 18 /\
  iconPaintingOriginY (translateIconOrigin placedCanvas (ofZ 4) (ofZ 5))
  = ofZ 35 /\
  c (invokeWithMargin (translateIconOrigin placedCanvas (ofZ 4) (ofZ 5))
            (MoveTo (ofZ 1) (ofZ 1)))
  = c (invokeWithMargin placedCanvas (MoveTo (ofZ 5) (ofZ 6))).
Proof.
  pose proof (translateIconOrigin_moves_origin_by_scaled_delta
                exampleMargin exampleMargin exampleMargin exampleMargin
                placedCanvas (ofZ 4) (ofZ 5))
    as (X & Y & _ & _ & _ & C & _).
  specialize (C (MoveTo (ofZ 1) (ofZ 1)) eq_refl).
  split; [reflexivity|].
  split; [rewrite X; qc_eval|].
  split; [rewrite Y; qc_eval|].
  unfold invokeWithMargin. rewrite C. cbn. repeat f_equal; qc_eval.
Defined.

(** C7, as stated, fails on binary64 numbers: on a canvas at the origin
    scaled by 0.7, [moveTo(3, 3)] after [translateIconOrigin(2, 2)]
    forwards 3.4999999999999996 ([0.7 * 2 + 3 * 0.7]), and [moveTo(5, 5)]
    before the translation forwards 3.5 ([5 * 0.7]). *)
Lemma translateIconOrigin_then_moveTo_differs_in_binary64 :
  Binary64.moveTo
    (Binary64.translateIconOrigin Binary64.scaledBySevenTenths 2 2) 3 3
  = (0x1.bffffffffffffp+1, 0x1.bffffffffffffp+1)%float /\
  Binary64.moveTo Binary64.scaledBySevenTenths (3 + 2) (3 + 2)
  = (0x1.cp+1, 0x1.cp+1)%float.
Proof. split; vm_compute; reflexivity. Qed.

(* ================================================================== *)
(** * More on the kind lists *)
(* ================================================================== *)

Section KindListFacts.
Local Open Scope string_scope.

(** Two suffixes of one string: one of them is a suffix of the other. *)
Lemma endsWith_comparable (s u v : string) :
  endsWith s u = true -> endsWith s v = true ->
  endsWith u v = true \/ endsWith v u = true.
Proof.
  induction s as [|a s IH]; cbn [endsWith].
  - destruct (String.eqb "" u) eqn:U; [|discriminate].
    apply String.eqb_eq in U. subst u. intros _ H. left.
    cbn [endsWith]. exact H.
  - destruct (String.eqb (String a s) u) eqn:U.
    + apply String.eqb_eq in U. subst u. intros _ H. left.
      cbn [endsWith]. exact H.
    + destruct (String.eqb (String a s) v) eqn:V.
      * apply String.eqb_eq in V. subst v. intros H _. right.
        cbn [endsWith]. rewrite U. exact H.
      * apply IH.
Qed.

Lemma includes_filterKind (kinds : list string) (suffix : string)
      (ignoreCase : bool) (kind : string) :
  includes (filterKind kinds suffix ignoreCase) kind = true ->
  filterKindPredicate suffix ignoreCase kind = true.
Proof.
  intros H. apply includes_In in H. apply filterKind_In in H. apply H.
Qed.

Lemma endsWith_empty (s : string) : endsWith s "" = true.
Proof. apply endsWith_spec. exists s. induction s; simpl; congruence. Qed.

(** X1: Every kind list is cut out of the enumeration: its kinds are kinds of
    the enumeration, it is no longer than the enumeration, and it repeats
    no kind when the enumeration repeats none. *)
Theorem filterKind_selects_from_enumeration :
  forall (kinds : list string) (suffix : string) (ignoreCase : bool),
    incl (filterKind kinds suffix ignoreCase) kinds /\
    (List.length (filterKind kinds suffix ignoreCase) <= List.length kinds)%nat /\
    (NoDup kinds -> NoDup (filterKind kinds suffix ignoreCase)).
Proof.
  intros kinds suffix ignoreCase. unfold filterKind. split; [|split].
  - apply incl_filter.
  - apply filter_length_le.
  - apply NoDup_filter.
Qed.

(** X2: What the three lists hold, and that [isEvent] is membership in the
    first: the kinds of the enumeration that end with ["Event"], those
    whose lower case ends with ["task"], those that end with
    ["Gateway"].  A string that is no kind of the enumeration is in none. *)
Theorem kind_lists_characterised :
  forall (kinds : list string) (kind : string),
    (isEvent kinds kind = true <-> In kind (topLevelBpmnEventKinds kinds)) /\
    (In kind (topLevelBpmnEventKinds kinds) <->
     In kind kinds /\ endsWith kind "Event" = true) /\
    (In kind (taskKinds kinds) <->
     In kind kinds /\ endsWith (toLowerCase kind) "task" = true) /\
    (In kind (gatewayKinds kinds) <->
     In kind kinds /\ endsWith kind "Gateway" = true).
Proof.
  intros kinds kind. split; [|split; [|split]].
  - unfold isEvent, topLevelBpmnEventKinds. apply includes_In.
  - unfold topLevelBpmnEventKinds, EVENT_KINDS. apply filterKind_In.
  - unfold taskKinds, TASK_KINDS. rewrite filterKind_In.
    unfold filterKindPredicate.
    destruct (endsWith kind "Task") eqn:E; [|reflexivity].
    apply endsWith_toLowerCase in E. change (toLowerCase "Task") with "task" in *.
    rewrite E. reflexivity.
  - unfold gatewayKinds, GATEWAY_KINDS. apply filterKind_In.
Qed.

(** X3: No kind is in two of the three lists, whatever the enumeration. *)
Theorem kind_lists_pairwise_disjoint :
  forall (kinds : list string) (kind : string),
    includes (topLevelBpmnEventKinds kinds) kind
    && includes (gatewayKinds kinds) kind = false /\
    includes (topLevelBpmnEventKinds kinds) kind
    && includes (taskKinds kinds) kind = false /\
    includes (taskKinds kinds) kind
    && includes (gatewayKinds kinds) kind = false.
Proof.
  intros kinds kind.
  assert (T : includes (taskKinds kinds) kind = true ->
              endsWith (toLowerCase kind) "task" = true).
  { intros H. apply includes_filterKind in H. unfold filterKindPredicate in H.
    destruct (endsWith kind "Task") eqn:E; [|exact H].
    now apply endsWith_toLowerCase in E. }
  repeat split; apply andb_false_iff.
  - destruct (includes (topLevelBpmnEventKinds kinds) kind) eqn:A; [|now left].
    destruct (includes (gatewayKinds kinds) kind) eqn:B; [|now right].
    apply includes_filterKind in A. apply includes_filterKind in B.
    destruct (endsWith_comparable _ _ _ A B); discriminate.
  - destruct (includes (topLevelBpmnEventKinds kinds) kind) eqn:A; [|now left].
    destruct (includes (taskKinds kinds) kind) eqn:B; [|now right].
    apply includes_filterKind in A. specialize (T eq_refl).
    apply endsWith_toLowerCase in A.
    destruct (endsWith_comparable _ _ _ A T); discriminate.
  - destruct (includes (taskKinds kinds) kind) eqn:A; [|now left].
    destruct (includes (gatewayKinds kinds) kind) eqn:B; [|now right].
    apply includes_filterKind in B. specialize (T eq_refl).
    apply endsWith_toLowerCase in B.
    destruct (endsWith_comparable _ _ _ T B); discriminate.
Qed.

(** X4: Ignoring the letter case only adds kinds: a kind the exact comparison
    selects is selected when the case is ignored; and the empty suffix
    selects the whole enumeration. *)
Theorem filterKind_ignoreCase_widens :
  forall (kinds : list string) (suffix : string) (ignoreCase : bool),
    incl (filterKind kinds suffix false) (filterKind kinds suffix true) /\
    filterKind kinds "" ignoreCase = kinds.
Proof.
  intros kinds suffix ignoreCase. split.
  - intros kind H. apply filterKind_In in H. apply filterKind_In.
    destruct H as [H E]. split; [exact H|].
    unfold filterKindPredicate in *. now rewrite E.
  - unfold filterKind. induction kinds as [|k kinds IH]; [reflexivity|].
    cbn [filter].
    replace (filterKindPredicate "" ignoreCase k) with true.
    + now rewrite IH.
    + unfold filterKindPredicate. rewrite endsWith_empty.
      now destruct ignoreCase.
Qed.

End KindListFacts.

(* ================================================================== *)
(** * More on the fitted icon size *)
(* ================================================================== *)

Section NumberOrderFacts.
Local Open Scope Qc_scope.

Lemma pos_neq_0 (a : number) : 0 < a -> a <> 0.
Proof. intros H E. rewrite E in H. now apply Qclt_not_eq in H. Qed.

Lemma inv_pos (a : number) : 0 < a -> 0 < / a.
Proof.
  intros H. unfold Qclt in *. change (this 0) with 0%Q in *.
  unfold Qcinv. change (this (Q2Qc (/ a))) with (Qred (/ a)).
  rewrite Qred_correct. now apply Qinv_lt_0_compat.
Qed.

Lemma mult_le_compat_l (a b d : number) : 0 <= a -> b <= d -> a * b <= a * d.
Proof.
  intros Ha H. rewrite (Qcmult_comm a b), (Qcmult_comm a d).
  now apply Qcmult_le_compat_r.
Qed.

Lemma mult_lt_compat_l (a b d : number) : 0 < a -> b < d -> a * b < a * d.
Proof.
  intros Ha H. rewrite (Qcmult_comm a b), (Qcmult_comm a d).
  now apply Qcmult_lt_compat_r.
Qed.

Lemma mult_nonneg (a b : number) : 0 <= a -> 0 <= b -> 0 <= a * b.
Proof.
  intros Ha Hb. replace 0 with (a * 0) by ring.
  now apply mult_le_compat_l.
Qed.

(** [a * r <= a] for a ratio [r] of at most one. *)
Lemma mult_ratio_le (a r : number) : 0 <= a -> r <= 1 -> a * r <= a.
Proof.
  intros Ha Hr. replace a with (a * 1) at 2 by ring.
  now apply mult_le_compat_l.
Qed.

(** [a * s / l <= a] when [s] is the shorter of two sides [s <= l]. *)
Lemma mult_div_le (a s l : number) :
  0 <= a -> 0 < l -> s <= l -> a * s / l <= a.
Proof.
  intros Ha Hl Hs.
  assert (N : l <> 0) by now apply pos_neq_0.
  replace (a * s / l) with (a * (s * / l)) by (field; exact N).
  apply mult_ratio_le; [exact Ha|].
  replace 1 with (l * / l) by (field; exact N).
  apply Qcmult_le_compat_r; [exact Hs|].
  apply Qclt_le_weak. now apply inv_pos.
Qed.

Lemma mult_div_nonneg (a s l : number) :
  0 <= a -> 0 <= s -> 0 < l -> 0 <= a * s / l.
Proof.
  intros Ha Hs Hl. unfold Qcdiv. apply mult_nonneg.
  - now apply mult_nonneg.
  - apply Qclt_le_weak. now apply inv_pos.
Qed.

Lemma minus_eq_0 (a b : number) : a - b = 0 <-> a = b.
Proof.
  split; intros H.
  - replace a with (a - b + b) by ring. rewrite H. ring.
  - rewrite H. ring.
Qed.

Lemma ltb_mult_pos (k a b : number) : 0 < k -> ltb (k * a) (k * b) = ltb a b.
Proof.
  intros Hk. destruct (ltb a b) eqn:E.
  - apply ltb_spec. apply ltb_spec in E. now apply mult_lt_compat_l.
  - destruct (ltb (k * a) (k * b)) eqn:F; [|reflexivity].
    apply ltb_spec in F.
    assert (L : b <= a).
    { apply Qcnot_lt_le. intros C. apply ltb_spec in C. congruence. }
    apply (mult_le_compat_l (a := k)) in L; [|now apply Qclt_le_weak].
    now apply Qcle_not_lt in L.
Qed.

Lemma eqb_mult_pos (k a b : number) : 0 < k -> eqb (k * a) (k * b) = eqb a b.
Proof.
  intros Hk. apply pos_neq_0 in Hk. destruct (eqb a b) eqn:E.
  - apply eqb_spec in E. subst. apply eqb_refl.
  - destruct (eqb (k * a) (k * b)) eqn:F; [|reflexivity].
    apply eqb_spec in F.
    assert (a = b).
    { replace a with (k * a / k) by (field; exact Hk).
      rewrite F. field; exact Hk. }
    apply eqb_spec in H. congruence.
Qed.

End NumberOrderFacts.

Section IconSizeMoreFacts.
Local Open Scope Qc_scope.

Lemma fitsShapeWidth_true (icon : Size) (shape : ShapeConfiguration) :
  fitsShapeWidth icon shape = true -> height icon <= width icon.
Proof.
  unfold fitsShapeWidth. intros H. apply orb_true_iff in H.
  destruct H as [H|H].
  - apply ltb_spec in H. now apply Qclt_le_weak.
  - apply andb_true_iff in H. destruct H as [H _].
    apply eqb_spec in H. rewrite H. apply Qcle_refl.
Qed.

Lemma fitsShapeWidth_false (icon : Size) (shape : ShapeConfiguration) :
  fitsShapeWidth icon shape = false -> width icon <= height icon.
Proof.
  unfold fitsShapeWidth. intros H. apply orb_false_iff in H.
  destruct H as [H _]. apply Qcnot_lt_le. intros C.
  apply ltb_spec in C. congruence.
Qed.

(** How far the result is from the proportions of the icon: the inset
    times the difference of the two sides of the icon. *)
Lemma computeScaledIconSize_deviation
      (icon : Size) (st : IconStyleConfiguration)
      (shape : ShapeConfiguration) (r : number) :
  width icon <> 0 -> height icon <> 0 ->
  width (computeScaledIconSize icon st shape r) * height icon
  - height (computeScaledIconSize icon st shape r) * width icon
  = inset st * (width icon - height icon).
Proof.
  intros NW NH.
  unfold computeScaledIconSize, iconSizeProportionalToShape.
  destruct (fitsShapeWidth icon shape); cbn [width height]; field; assumption.
Qed.

(** X5: In exact arithmetic (the rounding of binary64 set aside), the
    returned size has the proportions of the icon exactly when the inset
    is zero or the icon is square. *)
Theorem computeScaledIconSize_keeps_proportions_iff :
  forall (icon : Size) (st : IconStyleConfiguration)
         (shape : ShapeConfiguration) (ratioFromShape : number),
    width icon <> 0 ->
    height icon <> 0 ->
    (width (computeScaledIconSize icon st shape ratioFromShape) * height icon
     = height (computeScaledIconSize icon st shape ratioFromShape) * width icon
     <-> inset st = 0 \/ width icon = height icon).
Proof.
  intros icon st shape r NW NH.
  rewrite <- minus_eq_0, (@computeScaledIconSize_deviation icon st shape r NW NH).
  split.
  - intros H. apply Qcmult_integral in H. destruct H as [H|H].
    + now left.
    + right. now apply minus_eq_0.
  - intros [H|H].
    + rewrite H. ring.
    + rewrite H. ring.
Qed.

(** X6: In exact arithmetic (the rounding of binary64 set aside), the
    natural size of the icon matters through its proportions only: an icon
    [k] times as large on both sides is fitted to the same size. *)
Theorem computeScaledIconSize_scale_invariant :
  forall (k : number) (icon : Size) (st : IconStyleConfiguration)
         (shape : ShapeConfiguration) (ratioFromShape : number),
    0 < k ->
    width icon <> 0 ->
    height icon <> 0 ->
    computeScaledIconSize
      {| width := k * width icon; height := k * height icon |}
      st shape ratioFromShape
    = computeScaledIconSize icon st shape ratioFromShape.
Proof.
  intros k icon st shape r Hk NW NH.
  assert (Nk : k <> 0) by now apply pos_neq_0.
  unfold computeScaledIconSize, iconSizeProportionalToShape, fitsShapeWidth.
  cbn [width height].
  rewrite (@ltb_mult_pos k _ _ Hk), (@eqb_mult_pos k _ _ Hk).
  destruct (ltb (height icon) (width icon)
            || eqb (height icon) (width icon) && leb (w shape) (h shape));
    cbn [width height]; f_equal; field; auto.
Qed.

(** X7: In exact arithmetic (the rounding of binary64 set aside), with a
    shape of sides at least zero, a ratio between 0 and 1 and an inset that
    is not negative, neither side of the result exceeds the side of the
    shape the icon is fitted to: the width of the shape for an icon fitted
    to the width, its height otherwise. *)
Theorem computeScaledIconSize_within_fitted_side :
  forall (icon : Size) (st : IconStyleConfiguration)
         (shape : ShapeConfiguration) (ratioFromShape : number),
    0 < width icon ->
    0 < height icon ->
    0 <= w shape ->
    0 <= h shape ->
    0 <= ratioFromShape ->
    ratioFromShape <= 1 ->
    strokeWidth st = 0 \/ 1 <= strokeWidth st ->
    let side := if fitsShapeWidth icon shape then w shape else h shape in
    width (computeScaledIconSize icon st shape ratioFromShape) <= side /\
    height (computeScaledIconSize icon st shape ratioFromShape) <= side.
Proof.
  intros icon st shape r HW HH Hw Hh Hr0 Hr1 Hs side.
  apply inset_nonneg in Hs.
  assert (B : forall a, 0 <= a -> a * r - inset st <= a).
  { intros a Ha. apply Qcle_trans with (y := a * r).
    - now apply minus_le_of_nonneg.
    - now apply mult_ratio_le. }
  assert (B2 : forall a b, 0 <= a -> a <= b -> a * r - inset st <= b).
  { intros a b Ha Hab. apply Qcle_trans with (y := a); [now apply B | exact Hab]. }
  subst side. unfold computeScaledIconSize, iconSizeProportionalToShape.
  destruct (fitsShapeWidth icon shape) eqn:F; cbn [width height].
  - apply fitsShapeWidth_true in F. split.
    + now apply B.
    + apply B2.
      * apply mult_div_nonneg; [exact Hw | now apply Qclt_le_weak | exact HW].
      * now apply mult_div_le.
  - apply fitsShapeWidth_false in F. split.
    + apply B2.
      * apply mult_div_nonneg; [exact Hh | now apply Qclt_le_weak | exact HH].
      * now apply mult_div_le.
    + now apply B.
Qed.

(** X8: The side is chosen from the icon alone, so the other side of the
    shape can be exceeded: in exact arithmetic (the rounding of binary64
    set aside), an icon wider than high is fitted to the width of the
    shape, and with no inset its height comes out above the height of the
    shape as soon as the shape is flatter than the scaled icon. *)
Theorem computeScaledIconSize_wide_icon_overflows_flat_shape :
  forall (icon : Size) (st : IconStyleConfiguration)
         (shape : ShapeConfiguration) (ratioFromShape : number),
    0 < height icon ->
    height icon < width icon ->
    inset st = 0 ->
    h shape * width icon < w shape * height icon * ratioFromShape ->
    h shape < height (computeScaledIconSize icon st shape ratioFromShape).
Proof.
  intros icon st shape r HH HW HI Hflat.
  assert (PW : 0 < width icon) by (now apply Qclt_trans with (y := height icon)).
  assert (NW : width icon <> 0) by now apply pos_neq_0.
  unfold computeScaledIconSize, iconSizeProportionalToShape, fitsShapeWidth.
  apply ltb_spec in HW. rewrite HW, HI. cbn [orb width height].
  apply (Qcmult_lt_compat_r _ _ (/ width icon)) in Hflat;
    [|now apply inv_pos].
  replace (h shape * width icon * / width icon) with (h shape) in Hflat
    by (field; exact NW).
  replace (w shape * height icon / width icon * r - 0)
    with (w shape * height icon * r * / width icon) by (field; exact NW).
  exact Hflat.
Qed.

End IconSizeMoreFacts.

(* ================================================================== *)
(** * More on the canvas *)
(* ================================================================== *)

Section CanvasMoreFacts.
Local Open Scope Qc_scope.

(** The margins of [StyleDefault], whatever they are. *)
Variables topMargin leftMargin bottomMargin fromCenterMargin : number.

Local Abbreviation invoke :=
  (Canvas.invoke topMargin leftMargin bottomMargin fromCenterMargin).
Local Abbreviation run :=
  (Canvas.run topMargin leftMargin bottomMargin fromCenterMargin).
Local Abbreviation new :=
  (Canvas.new topMargin leftMargin bottomMargin fromCenterMargin).
Local Abbreviation setIconOriginForIconBottomCentered :=
  (Canvas.setIconOriginForIconBottomCentered bottomMargin).
Local Abbreviation setIconOriginForIconOnBottomLeft :=
  (Canvas.setIconOriginForIconOnBottomLeft bottomMargin fromCenterMargin).

(** The gap on each side of [a] centred in [b]. *)
Lemma centred_gaps (p b a : number) :
  p + (b - a) / ofZ 2 - p = p + b - (p + (b - a) / ofZ 2 + a).
Proof. change (ofZ 2) with (1 + 1). field. qc_eval. Qed.

(** X9: When [ratioFromShape] is left out, or is zero, the icon is not
    scaled: both scale factors are 1, whatever the shape and the icon. *)
Theorem new_without_ratio_is_unscaled :
  forall (mxCanvas : list mxCall) (shape : ShapeConfiguration)
         (icon : IconConfiguration),
    ratioFromShape icon = None \/ ratioFromShape icon = Some 0 ->
    scaleX (new mxCanvas shape icon) = 1 /\
    scaleY (new mxCanvas shape icon) = 1.
Proof.
  intros mx shape icon H.
  destruct (new_scale topMargin leftMargin bottomMargin fromCenterMargin
                      mx shape icon) as [X Y].
  rewrite X, Y. unfold constructorScale.
  destruct H as [-> | ->]; now split.
Qed.

Lemma new_scale_with_ratio (mxCanvas : list mxCall)
      (shape : ShapeConfiguration) (icon : IconConfiguration) (r : number) :
  ratioFromShape icon = Some r ->
  r <> 0 ->
  scaleX (new mxCanvas shape icon)
  = width (computeScaledIconSize (originalSize icon) (style icon) shape r)
    / width (originalSize icon) /\
  scaleY (new mxCanvas shape icon)
  = height (computeScaledIconSize (originalSize icon) (style icon) shape r)
    / height (originalSize icon).
Proof.
  intros Hr Nr.
  destruct (new_scale topMargin leftMargin bottomMargin fromCenterMargin
                      mxCanvas shape icon) as [X Y].
  rewrite X, Y. unfold constructorScale. rewrite Hr.
  apply truthy_spec in Nr. rewrite Nr. now split.
Qed.

(** X10: In exact arithmetic (the rounding of binary64 set aside), on a
    canvas built with a ratio, the box of the icon in its own units,
    [rect(0, 0, width, height)] of the original size, reaches the wrapped
    canvas as a rectangle at the origin of the icon whose sides are the
    fitted size. *)
Theorem icon_box_is_drawn_at_fitted_size :
  forall (mxCanvas : list mxCall) (shape : ShapeConfiguration)
         (icon : IconConfiguration) (r : number),
    ratioFromShape icon = Some r ->
    r <> 0 ->
    width (originalSize icon) <> 0 ->
    height (originalSize icon) <> 0 ->
    let cv := new mxCanvas shape icon in
    let fitted :=
      computeScaledIconSize (originalSize icon) (style icon) shape r in
    c (rect cv 0 0 (width (originalSize icon)) (height (originalSize icon)))
    = (c cv ++ [MxRect (iconPaintingOriginX cv) (iconPaintingOriginY cv)
                       (width fitted) (height fitted)])%list.
Proof.
  intros mx shape icon r Hr Nr NW NH cv fitted.
  destruct (@new_scale_with_ratio mx shape icon r Hr Nr) as [X Y].
  fold cv in X, Y. fold fitted in X, Y.
  unfold rect, forward, computeScaleFromOriginX, computeScaleFromOriginY.
  cbn [c]. rewrite X, Y. do 2 f_equal. f_equal.
  - ring.
  - ring.
  - field. exact NW.
  - field. exact NH.
Qed.

(** X11: In exact arithmetic (the rounding of binary64 set aside),
    [setIconOriginForIconCentered] centres the scaled icon in the shape:
    the gap left of it equals the gap right of it, and the gap above it
    the gap below it. *)
Theorem centered_icon_has_equal_margins :
  forall (cv : BpmnCanvas),
    let placed := setIconOriginForIconCentered cv in
    let shape := shapeConfiguration cv in
    let iconWidth := width (iconOriginalSize cv) * scaleX cv in
    let iconHeight := height (iconOriginalSize cv) * scaleY cv in
    iconPaintingOriginX placed - x shape
    = x shape + w shape - (iconPaintingOriginX placed + iconWidth) /\
    iconPaintingOriginY placed - y shape
    = y shape + h shape - (iconPaintingOriginY placed + iconHeight).
Proof.
  intros cv placed shape iconWidth iconHeight.
  subst placed shape iconWidth iconHeight. unfold setIconOriginForIconCentered, setOrigin.
  cbn [iconPaintingOriginX iconPaintingOriginY].
  split; apply centred_gaps.
Qed.

(** X12: In exact arithmetic (the rounding of binary64 set aside), the two
    bottom placements leave the bottom margin (the given one, or the
    default) between the scaled icon and the bottom of the shape;
    [setIconOriginForIconBottomCentered] centres it from left to right, and
    [setIconOriginForIconOnBottomLeft] puts it a sixth of the free width
    plus [fromCenterMargin] left of the centred place. *)
Theorem bottom_placements_keep_bottom_margin :
  forall (cv : BpmnCanvas) (bottom fromCenter : option number),
    let shape := shapeConfiguration cv in
    let iconWidth := width (iconOriginalSize cv) * scaleX cv in
    let iconHeight := height (iconOriginalSize cv) * scaleY cv in
    let centred := setIconOriginForIconBottomCentered cv bottom in
    let onLeft := setIconOriginForIconOnBottomLeft cv bottom fromCenter in
    y shape + h shape - (iconPaintingOriginY centred + iconHeight)
    = orDefault bottom bottomMargin /\
    y shape + h shape - (iconPaintingOriginY onLeft + iconHeight)
    = orDefault bottom bottomMargin /\
    iconPaintingOriginX centred - x shape
    = x shape + w shape - (iconPaintingOriginX centred + iconWidth) /\
    iconPaintingOriginX centred - iconPaintingOriginX onLeft
    = (w shape - iconWidth) / ofZ 6 + orDefault fromCenter fromCenterMargin.
Proof.
  intros cv bottom fromCenter shape iconWidth iconHeight centred onLeft.
  subst centred onLeft shape iconWidth iconHeight.
  unfold Canvas.setIconOriginForIconBottomCentered,
    Canvas.setIconOriginForIconOnBottomLeft, setOrigin.
  cbn [iconPaintingOriginX iconPaintingOriginY].
  repeat split.
  - ring.
  - ring.
  - apply centred_gaps.
  - change (ofZ 2) with (1 + 1). change (ofZ 3) with (1 + 1 + 1).
    change (ofZ 6) with ((1 + 1) * (1 + 1 + 1)).
    field. repeat split; qc_eval.
Qed.

(** X13: A placement forgets every earlier placement and translation: after
    any calls, it sets the origin it sets on the canvas as constructed. *)
Theorem placement_overrides_earlier_origin :
  forall (cv : BpmnCanvas) (calls : list method) (m : method),
    placesOrigin m = true ->
    iconPaintingOriginX (invoke (run cv calls) m)
    = iconPaintingOriginX (invoke cv m) /\
    iconPaintingOriginY (invoke (run cv calls) m)
    = iconPaintingOriginY (invoke cv m).
Proof.
  intros cv calls m Hm.
  destruct (run_fixed topMargin leftMargin bottomMargin fromCenterMargin
                      calls cv) as (X & Y & I & S).
  destruct m; try discriminate Hm;
    cbn [Canvas.invoke setIconOriginToShapeTopLeftProportionally
         Canvas.setIconOriginToShapeTopLeft setIconOriginForIconCentered
         Canvas.setIconOriginForIconBottomCentered
         Canvas.setIconOriginForIconOnBottomLeft setOrigin
         iconPaintingOriginX iconPaintingOriginY];
    rewrite ?X, ?Y, ?I, ?S; split; reflexivity.
Qed.

(** X14: Translations add up, a translation by the opposite amounts restores
    the canvas, and a translation by nothing changes nothing. *)
Theorem translateIconOrigin_composes :
  forall (cv : BpmnCanvas) (dx dy dx' dy' : number),
    translateIconOrigin (translateIconOrigin cv dx dy) dx' dy'
    = translateIconOrigin cv (dx + dx') (dy + dy') /\
    translateIconOrigin (translateIconOrigin cv dx dy) (- dx) (- dy) = cv /\
    translateIconOrigin cv 0 0 = cv.
Proof.
  intros [calls size sx sy ox oy shape] dx dy dx' dy'.
  unfold translateIconOrigin, setOrigin; cbn.
  repeat split; f_equal; ring.
Qed.

Lemma invoke_forwards (cv : BpmnCanvas) (m : method) :
  (movesOrigin m = true /\ c (invoke cv m) = c cv) \/
  (movesOrigin m = false /\ exists call, invoke cv m = forward cv call).
Proof.
  destruct m; cbn [movesOrigin placesOrigin];
    first [ left; split; reflexivity
          | right; split; [reflexivity | eexists; reflexivity] ].
Qed.

Lemma run_appends_one_call_per_drawing_method_aux
      (calls : list method) :
  forall cv : BpmnCanvas,
    exists forwarded : list mxCall,
      c (run cv calls) = (c cv ++ forwarded)%list /\
      List.length forwarded
      = List.length (filter (fun m => negb (movesOrigin m)) calls).
Proof.
  induction calls as [|m calls IH]; intros cv.
  - exists []. split; [now rewrite app_nil_r | reflexivity].
  - destruct (IH (invoke cv m)) as (rest & E & L).
    change (run cv (m :: calls)) with (run (invoke cv m) calls).
    destruct (invoke_forwards cv m) as [[M C] | [M [call C]]];
      cbn [filter]; rewrite M; cbn [negb].
    + exists rest. rewrite E, C. now split.
    + exists (call :: rest). rewrite E, C. cbn [forward c List.length].
      rewrite <- app_assoc. split; [reflexivity | now rewrite L].
Qed.

(** X15: The calls the wrapped canvas has received are never dropped or
    reordered: a sequence of method calls appends to them one call for
    each method that is no placement and no translation, and nothing
    else. *)
Theorem run_appends_one_call_per_drawing_method :
  forall (calls : list method) (cv : BpmnCanvas),
    exists forwarded : list mxCall,
      c (run cv calls) = (c cv ++ forwarded)%list /\
      List.length forwarded
      = List.length (filter (fun m => negb (movesOrigin m)) calls).
Proof. intros calls cv. apply run_appends_one_call_per_drawing_method_aux. Qed.

(** X16: A sequence of drawing calls, with no placement and no translation in
    it, leaves the origin where it is. *)
Theorem drawing_keeps_origin :
  forall (calls : list method) (cv : BpmnCanvas),
    forallb (fun m => negb (movesOrigin m)) calls = true ->
    iconPaintingOriginX (run cv calls) = iconPaintingOriginX cv /\
    iconPaintingOriginY (run cv calls) = iconPaintingOriginY cv.
Proof.
  induction calls as [|m calls IH]; intros cv H.
  - now split.
  - cbn [forallb] in H. apply andb_true_iff in H. destruct H as [M H].
    change (run cv (m :: calls)) with (run (invoke cv m) calls).
    destruct (IH (invoke cv m) H) as [X Y]. rewrite X, Y.
    destruct (invoke_forwards cv m) as [[M' _] | [_ [call C]]].
    + rewrite M' in M. discriminate M.
    + rewrite C. now split.
Qed.

(** X17: The constructor sets the style before anything else reaches the
    wrapped canvas: the fill colour, which is the stroke colour for a
    filled icon, then the stroke width; the callback adds one call for
    each drawing method it calls. *)
Theorem new_sets_style_first :
  forall (mxCanvas : list mxCall) (shape : ShapeConfiguration)
         (icon : IconConfiguration),
    exists forwarded : list mxCall,
      c (new mxCanvas shape icon)
      = (mxCanvas
         ++ [MxSetFillColor (if isFilled (style icon)
                             then strokeColor (style icon)
                             else fillColor (style icon));
             MxSetStrokeWidth (strokeWidth (style icon))]
         ++ forwarded)%list /\
      List.length forwarded
      = List.length (filter (fun m => negb (movesOrigin m))
                            (setIconOrigin icon)).
Proof.
  intros mx shape icon. unfold Canvas.new.
  match goal with
  | |- context [Canvas.run _ _ _ _ ?cv0 ?calls] =>
      destruct (run_appends_one_call_per_drawing_method_aux calls cv0)
        as (rest & E & L)
  end.
  exists rest. rewrite E. split; [|exact L].
  unfold updateCanvasStyle.
  destruct (isFilled (style icon)); cbn [forward c];
    now rewrite <- !app_assoc.
Qed.

(** X18: A rectangle and an ellipse are forwarded with the far corner where
    the point [(x + w, y + h)] is forwarded: the sides are scaled as the
    coordinates are, so a box drawn by size and a path drawn through its
    corners cover the same place, wherever the origin is. *)
Theorem rect_reaches_the_mapped_far_corner :
  forall (cv : BpmnCanvas) (x y w h : number),
    exists left top wide high : number,
      c (rect cv x y w h) = (c cv ++ [MxRect left top wide high])%list /\
      c (ellipse cv x y w h) = (c cv ++ [MxEllipse left top wide high])%list /\
      c (moveTo cv x y) = (c cv ++ [MxMoveTo left top])%list /\
      c (lineTo cv (x + w) (y + h))
      = (c cv ++ [MxLineTo (left + wide) (top + high)])%list.
Proof.
  intros cv x y w h.
  exists (computeScaleFromOriginX cv x), (computeScaleFromOriginY cv y),
         (w * scaleX cv), (h * scaleY cv).
  repeat split.
  unfold lineTo, forward, computeScaleFromOriginX, computeScaleFromOriginY.
  cbn [c]. do 2 f_equal. f_equal; ring.
Qed.

(** X19: In exact arithmetic (the rounding of binary64 set aside), a canvas
    built with a ratio and the callback that centres the icon has its
    origin where the fitted size is centred in the shape. *)
Theorem new_centered_places_fitted_size_in_the_middle :
  forall (mxCanvas : list mxCall) (shape : ShapeConfiguration)
         (icon : IconConfiguration) (r : number),
    ratioFromShape icon = Some r ->
    r <> 0 ->
    width (originalSize icon) <> 0 ->
    height (originalSize icon) <> 0 ->
    setIconOrigin icon = [SetIconOriginForIconCentered] ->
    let cv := new mxCanvas shape icon in
    let fitted :=
      computeScaledIconSize (originalSize icon) (style icon) shape r in
    iconPaintingOriginX cv = x shape + (w shape - width fitted) / ofZ 2 /\
    iconPaintingOriginY cv = y shape + (h shape - height fitted) / ofZ 2.
Proof.
  intros mx shape icon r Hr Nr NW NH Hcall cv fitted.
  subst cv. unfold Canvas.new. rewrite Hcall.
  cbn [Canvas.run fold_left Canvas.invoke].
  match goal with
  | |- context [setIconOriginForIconCentered (updateCanvasStyle ?cv0 ?st)] =>
      destruct (updateCanvasStyle_fixed cv0 st) as (X & Y & I & S)
  end.
  unfold setIconOriginForIconCentered, setOrigin.
  cbn [iconPaintingOriginX iconPaintingOriginY].
  rewrite X, Y, I, S.
  cbn [scaleX scaleY iconOriginalSize shapeConfiguration].
  unfold constructorScale. rewrite Hr.
  apply truthy_spec in Nr. rewrite Nr. cbn [fst snd]. fold fitted.
  split; do 3 f_equal; field; assumption.
Qed.

End CanvasMoreFacts.

(* ================================================================== *)
(** * The added properties on the configurations of the examples *)
(* ================================================================== *)

Section Instances.
Local Open Scope Qc_scope.

Lemma computeScaledIconSize_keeps_proportions_iff_witness :
  let fitted :=
    computeScaledIconSize wideIconSize (styleOfStrokeWidth 1) squareShape 1 in
  width fitted * height wideIconSize = height fitted * width wideIconSize.
Proof.
  intros fitted.
  assert (NW : width wideIconSize <> 0) by qc_eval.
  assert (NH : height wideIconSize <> 0) by qc_eval.
  apply (proj2 (computeScaledIconSize_keeps_proportions_iff
                  wideIconSize (styleOfStrokeWidth 1) squareShape 1 NW NH)).
  left. qc_eval.
Defined.

Lemma computeScaledIconSize_scale_invariant_witness :
  computeScaledIconSize
    {| width := ofZ 25 * width wideIconSize;
       height := ofZ 25 * height wideIconSize |}
    (styleOfStrokeWidth (ofZ 2)) squareShape 1
  = computeScaledIconSize wideIconSize (styleOfStrokeWidth (ofZ 2))
                          squareShape 1.
Proof.
  apply computeScaledIconSize_scale_invariant; qc_eval.
Defined.

Lemma computeScaledIconSize_within_fitted_side_witness :
  let fitted :=
    computeScaledIconSize wideIconSize (styleOfStrokeWidth (ofZ 2))
                          squareShape 1 in
  fitsShapeWidth wideIconSize squareShape = true /\
  width fitted <= w squareShape /\
  height fitted <= w squareShape.
Proof.
  intros fitted. split; [reflexivity|].
  apply (computeScaledIconSize_within_fitted_side
           wideIconSize (styleOfStrokeWidth (ofZ 2)) squareShape (ratioFromShape := 1));
    try qc_eval.
  right. qc_eval.
Defined.

Lemma computeScaledIconSize_wide_icon_overflows_flat_shape_witness :
  h flatShape * width wideIconSize
  < w flatShape * height wideIconSize * 1 /\
  h flatShape
  < height (computeScaledIconSize wideIconSize (styleOfStrokeWidth 1)
                                  flatShape 1).
Proof.
  assert (F : h flatShape * width wideIconSize
              < w flatShape * height wideIconSize * 1) by qc_eval.
  split; [exact F|].
  apply computeScaledIconSize_wide_icon_overflows_flat_shape;
    [qc_eval | qc_eval | qc_eval | exact F].
Defined.

Lemma new_without_ratio_is_unscaled_witness :
  scaleX (newWithMargin [] squareShape unscaledIcon) = 1 /\
  scaleY (newWithMargin [] squareShape unscaledIcon) = 1.
Proof.
  apply new_without_ratio_is_unscaled. left. reflexivity.
Defined.

Lemma icon_box_is_drawn_at_fitted_size_witness :
  let cv := newWithMargin [] squareShape (wideIconThickStroke []) in
  c (rect cv 0 0 (width wideIconSize) (height wideIconSize))
  = (c cv ++ [MxRect (iconPaintingOriginX cv) (iconPaintingOriginY cv)
                     (ofZ 6) (ofZ 2)])%list.
Proof.
  intros cv.
  assert (E : computeScaledIconSize wideIconSize (styleOfStrokeWidth (ofZ 2))
                                    squareShape 1
              = {| width := ofZ 6; height := ofZ 2 |})
    by (unfold computeScaledIconSize; f_equal; qc_eval).
  pose proof (icon_box_is_drawn_at_fitted_size
                exampleMargin exampleMargin exampleMargin exampleMargin
                [] squareShape (wideIconThickStroke []) (r := 1)
                eq_refl) as H.
  cbv zeta in H. change (originalSize (wideIconThickStroke [])) with wideIconSize in H.
  change (style (wideIconThickStroke [])) with (styleOfStrokeWidth (ofZ 2)) in H.
  rewrite E in H. apply H; qc_eval.
Defined.

Lemma placement_overrides_earlier_origin_witness :
  let moved :=
    runWithMargin placedCanvas
                  [TranslateIconOrigin (ofZ 4) (ofZ 5); MoveTo 1 1;
                   SetIconOriginToShapeTopLeft None None] in
  iconPaintingOriginX (invokeWithMargin moved SetIconOriginForIconCentered)
  = iconPaintingOriginX (invokeWithMargin placedCanvas
                                          SetIconOriginForIconCentered) /\
  iconPaintingOriginY (invokeWithMargin moved SetIconOriginForIconCentered)
  = iconPaintingOriginY (invokeWithMargin placedCanvas
                                          SetIconOriginForIconCentered).
Proof.
  intros moved.
  exact (placement_overrides_earlier_origin
           exampleMargin exampleMargin exampleMargin exampleMargin
           placedCanvas
           [TranslateIconOrigin (ofZ 4) (ofZ 5); MoveTo 1 1;
            SetIconOriginToShapeTopLeft None None]
           SetIconOriginForIconCentered eq_refl).
Defined.

Lemma drawing_keeps_origin_witness :
  let drawn :=
    runWithMargin placedCanvas
                  [Begin; MoveTo 0 0; LineTo (ofZ 4) (ofZ 2);
                   Rotate 1 false false (ofZ 5) (ofZ 5); Close; FillAndStroke] in
  iconPaintingOriginX drawn = iconPaintingOriginX placedCanvas /\
  iconPaintingOriginY drawn = iconPaintingOriginY placedCanvas.
Proof.
  intros drawn.
  exact (drawing_keeps_origin
           exampleMargin exampleMargin exampleMargin exampleMargin
           [Begin; MoveTo 0 0; LineTo (ofZ 4) (ofZ 2);
            Rotate 1 false false (ofZ 5) (ofZ 5); Close; FillAndStroke]
           placedCanvas eq_refl).
Defined.

Lemma new_centered_places_fitted_size_in_the_middle_witness :
  let cv :=
    newWithMargin [] squareShape
                  (wideIconThickStroke [SetIconOriginForIconCentered]) in
  iconPaintingOriginX cv = 1 /\ iconPaintingOriginY cv = ofZ 3.
Proof.
  intros cv.
  assert (E : computeScaledIconSize wideIconSize (styleOfStrokeWidth (ofZ 2))
                                    squareShape 1
              = {| width := ofZ 6; height := ofZ 2 |})
    by (unfold computeScaledIconSize; f_equal; qc_eval).
  pose proof (new_centered_places_fitted_size_in_the_middle
                exampleMargin exampleMargin exampleMargin exampleMargin
                [] squareShape
                (wideIconThickStroke [SetIconOriginForIconCentered]) (r := 1)
                eq_refl) as H.
  cbv zeta in H.
  change (originalSize (wideIconThickStroke [SetIconOriginForIconCentered]))
    with wideIconSize in H.
  change (style (wideIconThickStroke [SetIconOriginForIconCentered]))
    with (styleOfStrokeWidth (ofZ 2)) in H.
  rewrite E in H.
  destruct H as [X Y]; try qc_eval.
  subst cv. unfold newWithMargin. rewrite X, Y. split; qc_eval.
Defined.

End Instances.
